(** * The batched DOM mutation queue of Titon Toolkit's [Element] class

    A shallow embedding of [class Element] (the wrapper that queues DOM
    mutations and applies them inside an animation frame) and the
    properties of its queue, its flush and its [read] / [write] frame
    scheduling.

    Conventions of the embedding:
    - a JavaScript object used as a map is an association list in
      insertion order, because the flush enumerates the queue object with
      [forOwn] and the enumeration order of own string keys is their
      creation order, after the keys that are array indices;
    - the wrapped DOM node is abstract: the class [Host] lists the DOM
      operations the source calls on it, all total; [Dom] further down is
      one concrete node with independent class, attribute, property and
      style stores, and [Recorder] one that keeps the calls it receives;
    - a method is a computation in the monad [M]: it transforms the
      instance, may register animation-frame callbacks and either returns
      or throws.  The instance as left at the point of a throw is kept, as
      on the JavaScript heap;
    - the promise made by [read] or [write] is represented by the frame
      callback that settles it; the [then]-chaining helpers [promise.write]
      and [promise.read] are not part of the model;
    - [conceal] takes the absent [transitionEnd] helper as a parameter;
      [Toolkit.create] and [bem] are modelled at the end of the definitions,
      with [$.fn], [toUpperCase] and [Titon.options] as parameters. *)

From stdpp Require Import gmap strings list pretty.

Open Scope string_scope.

(** ** JavaScript values and objects *)

Inductive jsval : Type :=
| VUndefined
| VNull
| VBool (b : bool)
| VNum (n : Z)
| VStr (s : string).

#[global] Instance jsval_eq_dec : EqDecision jsval.
Proof. solve_decision. Defined.

(** *** [String(value)]

    A number is given by an integer; an integer that is not itself a
    Number value stands for the Number value nearest to it, as a literal
    does.  Up to [2 ^ 53] every integer is a Number value and prints with
    all its digits; above, [Number::toString] prints the shortest digits
    that read back as the same Number value, filled up with zeros below
    [10 ^ 21] and in exponent notation from there on. *)

(** The Number value nearest to [n >= 2 ^ 53], ties to even, as a mantissa
    [2 ^ 52 <= m < 2 ^ 53] and an exponent [q]: the value is [m * 2 ^ q]. *)
Definition nearest_double (n : Z) : Z * Z :=
  let q := (Z.log2 n - 52)%Z in
  let m := (n / 2 ^ q)%Z in
  let r := (n mod 2 ^ q)%Z in
  let half := (2 ^ (q - 1))%Z in
  let m' := if (half <? r)%Z || ((r =? half)%Z && Z.odd m) then (m + 1)%Z else m in
  if (m' =? 2 ^ 53)%Z then ((2 ^ 52)%Z, (q + 1)%Z) else (m', q).

(** Whether the integer [v] reads as the Number value [m * 2 ^ q]: it lies
    within half the gap to the neighbouring value on its side, the middle
    itself counting when [m] is even. *)
Definition reads_as (m q v : Z) : bool :=
  let x := (m * 2 ^ q)%Z in
  if (x <=? v)%Z then
    let d := (2 * (v - x))%Z in
    (d <? 2 ^ q)%Z || (Z.even m && (d =? 2 ^ q)%Z)
  else
    let gap := if (m =? 2 ^ 52)%Z then (2 ^ (q - 1))%Z else (2 ^ q)%Z in
    let d := (2 * (x - v))%Z in
    (d <? gap)%Z || (Z.even m && (d =? gap)%Z).

(** The digits [s], their number [k] and the decimal exponent [n] of
    [Number::toString]: the least [k] for which some [s * 10 ^ (n - k)]
    reads as the value, and of two such [s] the nearer one, or the even one
    when they are as near.  [shortest_digits fuel k m q n] tries [k], [k + 1]
    and so on for a value [m * 2 ^ q] of [n] digits. *)
Fixpoint shortest_digits (fuel : nat) (k m q n : Z) : Z * Z * Z :=
  let x := (m * 2 ^ q)%Z in
  let unit := (10 ^ (n - k))%Z in
  let below := (x / unit)%Z in
  let above := (below + 1)%Z in
  let pick :=
    match reads_as m q (below * unit), reads_as m q (above * unit) with
    | true, true =>
        let d1 := (x - below * unit)%Z in
        let d2 := (above * unit - x)%Z in
        if (d1 <? d2)%Z then Some below
        else if (d2 <? d1)%Z then Some above
        else Some (if Z.even below then below else above)
    | true, false => Some below
    | false, true => Some above
    | false, false => None
    end in
  match pick, fuel with
  | Some s, _ => if (s =? 10 ^ k)%Z then ((10 ^ (k - 1))%Z, k, (n + 1)%Z) else (s, k, n)
  | None, S fuel' => shortest_digits fuel' (k + 1) m q n
  | None, O => (x, n, n)
  end.

Fixpoint zeros (n : nat) : string :=
  match n with
  | O => ""
  | S n' => "0" +:+ zeros n'
  end.

(** [Number::toString(x)] in radix 10, for an integer [x]. *)
Definition Number_toString (x : Z) : string :=
  let a := Z.abs x in
  if (a <=? 2 ^ 53)%Z then pretty x
  else
    let sign := if (x <? 0)%Z then "-" else "" in
    let '(m, q) := nearest_double a in
    if (971 <? q)%Z then sign +:+ "Infinity"
    else
      let len := String.length (pretty (m * 2 ^ q)%Z) in
      let '(s, k, n) := shortest_digits len 1 m q (Z.of_nat len) in
      let digits := pretty s in
      if (n <=? 21)%Z then sign +:+ digits +:+ zeros (Z.to_nat (n - k))
      else
        let mantissa :=
          match digits with
          | String d rest => if (k =? 1)%Z then digits else String d ("." +:+ rest)
          | EmptyString => digits
          end in
        sign +:+ mantissa +:+ "e+" +:+ pretty (n - 1)%Z.

(** [String(value)] on the values above. *)
Definition String_ (value : jsval) : string :=
  match value with
  | VUndefined => "undefined"
  | VNull => "null"
  | VBool true => "true"
  | VBool false => "false"
  | VNum n => Number_toString n
  | VStr s => s
  end.

Inductive jserror : Type :=
| JsError (message : string)
| JsTypeError (message : string).

(** An object as the list of its own enumerable entries, oldest key first. *)
Definition jsobj (V : Type) : Type := list (string * V).

Fixpoint obj_get {V : Type} (k : string) (o : jsobj V) : option V :=
  match o with
  | [] => None
  | (k', v') :: o' => if decide (k = k') then Some v' else obj_get k o'
  end.

(** [o[k] = v] for a key that is not an array index: an existing key keeps
    its place, a new key goes last. *)
Fixpoint obj_set {V : Type} (k : string) (v : V) (o : jsobj V) : jsobj V :=
  match o with
  | [] => [(k, v)]
  | (k', v') :: o' =>
      if decide (k = k') then (k, v) :: o' else (k', v') :: obj_set k v o'
  end.

(** The array index a key denotes, if it is one: the decimal form, without
    leading zero, of an integer from [0] to [2 ^ 32 - 2]. *)
Definition digit_value (c : Ascii.ascii) : option N :=
  let n := Ascii.N_of_ascii c in
  if (48 <=? n)%N && (n <=? 57)%N then Some (n - 48)%N else None.

Fixpoint decimal_value (s : string) (acc : N) : option N :=
  match s with
  | EmptyString => Some acc
  | String c rest =>
      match digit_value c with
      | Some d => decimal_value rest (10 * acc + d)%N
      | None => None
      end
  end.

Definition array_index (k : string) : option N :=
  match k with
  | EmptyString => None
  | String c rest =>
      if decide (rest = EmptyString) then digit_value c
      else if decide (digit_value c = Some 0%N) then None
      else match decimal_value k 0 with
           | Some n => if (n <? 4294967295)%N then Some n else None
           | None => None
           end
  end.

(** A new key that is the array index [i]: the own keys that are array
    indices come first in the enumeration, in ascending order. *)
Fixpoint insert_index {V : Type} (i : N) (k : string) (v : V) (o : jsobj V) : jsobj V :=
  match o with
  | [] => [(k, v)]
  | (k', v') :: o' =>
      match array_index k' with
      | Some i' => if (i <? i')%N then (k, v) :: o else (k', v') :: insert_index i k v o'
      | None => (k, v) :: o
      end
  end.

(** [o[k] = v] where [k] comes from a caller and [v] is a primitive, on an
    object made by the literal [{}].  Such an object inherits the accessor
    [__proto__] of [Object.prototype], so an assignment under that key runs
    the accessor's setter and defines no own entry: the setter ignores a
    boolean, a number, a string and [undefined], and for [null] it removes
    the object's prototype.  (On an object without prototype a later
    assignment under [__proto__] would be an ordinary one.  The entries do
    not tell such an object apart: that one sequence, [null] and then
    another value under [__proto__] before the next flush, is outside the
    model.) *)
Definition obj_assign (k : string) (v : jsval) (o : jsobj jsval) : jsobj jsval :=
  if decide (k = "__proto__") then o
  else match array_index k, obj_get k o with
       | Some i, None => insert_index i k v o
       | _, _ => obj_set k v o
       end.

(** What the queue object holds under a key: a class name, or one of the
    three maps of pending assignments. *)
Inductive qentry : Type :=
| QStr (s : string)
| QMap (m : jsobj jsval).

(** ** The wrapped DOM node *)

(** The DOM operations the source performs on [this.element]. *)
Class Host (T : Type) : Type := {
  classList_add : string -> T -> T;          (* element.classList.add(v) *)
  classList_remove : string -> T -> T;       (* element.classList.remove(v) *)
  classList_contains : string -> T -> bool;  (* element.classList.contains(v) *)
  dom_setAttribute : string -> jsval -> T -> T;  (* element.setAttribute(k, v) *)
  dom_setProperty : string -> jsval -> T -> T;   (* element[k] = v *)
  style_set : string -> jsval -> T -> T;     (* element.style[k] = v *)
  style_get : string -> T -> jsval           (* element.style[k] *)
}.

(** The global [Toolkit] object, as far as [Element] reads it. *)
Record Toolkit : Type := mkToolkit { aria : bool }.

(** Methods that [return this]. *)
Inductive ref : Type := This.

(** How a frame callback settles the promise created with it. *)
Inductive settlement : Type :=
| Resolved (value : ref)
| Rejected (value : ref).

Inductive completion (A : Type) : Type :=
| Normal (a : A)
| Throw (e : jserror).
Arguments Normal {A} a.
Arguments Throw {A} e.

(** ** The instance and the method monad *)

Record Element (T : Type) : Type := mkElement {
  element : option T;        (* element = null *)
  queue : jsobj qentry;      (* queue = {} *)
  reading : bool;            (* reading = false *)
  writing : bool             (* writing = false *)
}.
Arguments mkElement {T} _ _ _ _.
Arguments element {T} _.
Arguments queue {T} _.
Arguments reading {T} _.
Arguments writing {T} _.

Record outcome (S F A : Type) : Type := Outcome {
  st : S;                    (* the instance afterwards *)
  registered : list F;       (* frame callbacks registered meanwhile *)
  res : completion A
}.
Arguments Outcome {S F A} _ _ _.
Arguments st {S F A} _.
Arguments registered {S F A} _.
Arguments res {S F A} _.

(** A callback handed to [requestAnimationFrame]. *)
#[warnings="-register-all"]
Inductive Frame (T : Type) : Type :=
| OnFrame (body : Element T -> outcome (Element T) (Frame T) settlement).
Arguments OnFrame {T} body.

Definition M (T A : Type) : Type := Element T -> outcome (Element T) (Frame T) A.

Definition frame_body {T : Type} (f : Frame T) : M T settlement :=
  match f with OnFrame body => body end.

Definition ret {T A : Type} (a : A) : M T A :=
  fun e => Outcome e [] (Normal a).

Definition bind {T A B : Type} (m : M T A) (k : A -> M T B) : M T B :=
  fun e =>
    let o := m e in
    match res o with
    | Normal a =>
        let o' := k a (st o) in
        Outcome (st o') (registered o ++ registered o') (res o')
    | Throw err => Outcome (st o) (registered o) (Throw err)
    end.

Definition throw {T A : Type} (err : jserror) : M T A :=
  fun e => Outcome e [] (Throw err).

(** [try { m } catch (e) { h e }] *)
Definition try_catch {T A : Type} (m : M T A) (h : jserror -> M T A) : M T A :=
  fun e =>
    let o := m e in
    match res o with
    | Normal a => o
    | Throw err =>
        let o' := h err (st o) in
        Outcome (st o') (registered o ++ registered o') (res o')
    end.

Definition gets {T A : Type} (f : Element T -> A) : M T A :=
  fun e => Outcome e [] (Normal (f e)).

Definition modify {T : Type} (f : Element T -> Element T) : M T unit :=
  fun e => Outcome (f e) [] (Normal tt).

Declare Scope js_scope.
Delimit Scope js_scope with js.
Notation "'let!' x ':=' m 'in' k" := (bind m (fun x => k))
  (at level 10, x name, m at level 100, k at level 200) : js_scope.
Notation "m ;; k" := (bind m (fun _ => k))
  (at level 100, k at level 200, right associativity) : js_scope.
Open Scope js_scope.

Definition set_element {T : Type} (el : option T) (e : Element T) : Element T :=
  mkElement el (queue e) (reading e) (writing e).
Definition set_queue {T : Type} (q : jsobj qentry) (e : Element T) : Element T :=
  mkElement (element e) q (reading e) (writing e).
Definition set_reading {T : Type} (b : bool) (e : Element T) : Element T :=
  mkElement (element e) (queue e) b (writing e).
Definition set_writing {T : Type} (b : bool) (e : Element T) : Element T :=
  mkElement (element e) (queue e) (reading e) b.

(** Modelled from the spec: [forOwn] ([../object/forOwn] is not among the
    sources).  It applies the callback per own entry of the object, with
    the key first and the value second, as every call site expects; the
    entries come in the object's enumeration order. *)
Fixpoint forOwn {T V : Type} (object : jsobj V) (func : string -> V -> M T unit)
  : M T unit :=
  match object with
  | [] => ret tt
  | (key, value) :: rest => func key value ;; forOwn rest func
  end.

(** Modelled from the spec: [requestAnimationFrame]
    ([polyfills/requestAnimationFrame] is not among the sources), the host's
    "run this exactly once before the next paint": the callback is booked for
    the coming frame, each call taking a slot of its own. *)
Definition requestAnimationFrame {T : Type} (f : Frame T) : M T unit :=
  fun e => Outcome e [f] (Normal tt).

(** ** The methods of [class Element] *)

Section Methods.
Context {T : Type} `{Host T}.

(** The global [Toolkit] the module imports. *)
Variable Toolkit_ : Toolkit.

Definition resetQueue : M T ref :=
  modify (set_queue [("attributes", QMap []);
                     ("properties", QMap []);
                     ("styles", QMap [])]) ;;
  ret This.

(** [constructor(element)]; the class fields start as [reading = false],
    [writing = false]. *)
Definition new_Element (el : option T) : Element T :=
  st (resetQueue (mkElement el [] false false)).

Definition addClass (className : string) : M T ref :=
  modify (fun this => set_queue (obj_set "addClass" (QStr className) (queue this)) this) ;;
  ret This.

Definition removeClass (className : string) : M T ref :=
  modify (fun this => set_queue (obj_set "removeClass" (QStr className) (queue this)) this) ;;
  ret This.

(** [this.queue[name][key] = value], the assignment the three map setters
    share; it throws where [this.queue[name]] is not an object.  The maps
    are the literals [{}] of [resetQueue], so the key [__proto__] leaves no
    entry in them. *)
Definition queue_assign (name key : string) (value : jsval) : M T unit :=
  let! q := gets queue in
  match obj_get name q with
  | Some (QMap m) =>
      modify (set_queue (obj_set name (QMap (obj_assign key value m)) q))
  | _ => throw (JsTypeError "Cannot set properties of undefined")
  end.

Definition setAttribute (attribute : string) (value : jsval) : M T ref :=
  queue_assign "attributes" attribute (VStr (String_ value)) ;;
  ret This.

Definition setAttributes (attributes : jsobj jsval) : M T ref :=
  forOwn attributes (fun k v => setAttribute k v ;; ret tt) ;;
  ret This.

Definition setProperty (property : string) (value : jsval) : M T ref :=
  queue_assign "properties" property value ;;
  ret This.

Definition setProperties (properties : jsobj jsval) : M T ref :=
  forOwn properties (fun k v => setProperty k v ;; ret tt) ;;
  ret This.

Definition setStyle (property : string) (value : jsval) : M T ref :=
  queue_assign "styles" property value ;;
  ret This.

Definition setStyles (properties : jsobj jsval) : M T ref :=
  forOwn properties (fun k v => setStyle k v ;; ret tt) ;;
  ret This.

(** [setAria] and [setArias] call each other: [depth] bounds the nesting of
    the ["toggled"] fan-out, which never exceeds one level because the two
    keys it expands to are not ["toggled"]. *)
Fixpoint setAria_at (depth : nat) (key : string) (value : jsval) : M T ref :=
  if negb (aria Toolkit_) then ret This
  else if decide (key = "toggled") then
    match depth with
    | O => throw (JsError "Maximum call stack size exceeded")
    | S depth' =>
        forOwn [("expanded", value); ("selected", value)]
               (fun k v => setAria_at depth' k v ;; ret tt) ;;
        ret This
    end
  else setAttribute ("aria-" +:+ key) value.

Definition setAria (key : string) (value : jsval) : M T ref :=
  setAria_at 1 key value.

Definition setArias (keys : jsobj jsval) : M T ref :=
  forOwn keys (fun k v => setAria k v ;; ret tt) ;;
  ret This.

(** [this.element.classList.contains(className)]; reading [classList] of
    [null] throws. *)
Definition hasClass (className : string) : M T bool :=
  let! el := gets element in
  match el with
  | Some node => ret (classList_contains className node)
  | None => throw (JsTypeError "Cannot read properties of null")
  end.

Definition isVisible : M T bool :=
  let! el := gets element in
  match el with
  | Some node =>
      ret (negb (bool_decide (style_get "visibility" node = VStr "hidden")))
  | None => throw (JsTypeError "Cannot read properties of null")
  end.

(** A DOM operation on the node [this.element] refers to. *)
Definition on_element (op : T -> T) : M T unit :=
  modify (fun this => set_element (op <$> element this) this).

(** The body of the [switch (key)] in [processQueue].  An entry of the
    wrong kind under one of the five keys is never stored by the class;
    there the DOM call would be handed a non-string and fails. *)
Definition process_entry (key : string) (value : qentry) : M T unit :=
  if decide (key = "addClass") then
    match value with
    | QStr v => on_element (classList_add v)
    | QMap _ => throw (JsTypeError "invalid class name")
    end
  else if decide (key = "removeClass") then
    match value with
    | QStr v => on_element (classList_remove v)
    | QMap _ => throw (JsTypeError "invalid class name")
    end
  else if decide (key = "attributes") then
    match value with
    | QMap m => forOwn m (fun k v => on_element (dom_setAttribute k v))
    | QStr _ => throw (JsTypeError "invalid attribute map")
    end
  else if decide (key = "properties") then
    match value with
    | QMap m => forOwn m (fun k v => on_element (dom_setProperty k v))
    | QStr _ => throw (JsTypeError "invalid property map")
    end
  else if decide (key = "styles") then
    match value with
    | QMap m => forOwn m (fun k v => on_element (style_set k v))
    | QStr _ => throw (JsTypeError "invalid style map")
    end
  else ret tt.

Definition processQueue : M T ref :=
  let! queue_ := gets queue in
  let! element_ := gets element in
  match element_ with
  | None => throw (JsError "No element in container. Cannot process queue.")
  | Some _ =>
      forOwn queue_ process_entry ;;
      resetQueue ;;
      ret This
  end.

Definition reveal (dontShow : bool) : M T ref :=
  (if negb dontShow then setStyle "display" (VStr "") else ret This) ;;
  removeClass "hide" ;;
  addClass "show" ;;
  setAria "hidden" (VBool false).

(** The promise a call returns, given by the frame callback that settles
    it. *)
Record Promise : Type := mkPromise { settled_by : Frame T }.

Definition callback : Type := M T unit.

(** The arrow function [read] hands to [requestAnimationFrame]. *)
Definition read_frame (func : callback) : Frame T :=
  OnFrame (try_catch
             (modify (set_reading true) ;;
              func ;;
              modify (set_reading false) ;;
              ret (Resolved This))
             (fun _ => ret (Rejected This))).

Definition read (func : callback) : M T (option Promise) :=
  let! busy := gets reading in
  if busy then ret None
  else
    requestAnimationFrame (read_frame func) ;;
    ret (Some (mkPromise (read_frame func))).

(** The arrow function [write] hands to [requestAnimationFrame]. *)
Definition write_frame : Frame T :=
  OnFrame (try_catch
             (processQueue ;; ret (Resolved This))
             (fun _ => ret (Rejected This))).

(** [func] is [None] where the argument is not a function. *)
Definition write (func : option callback) : M T (option Promise) :=
  let! busy := gets writing in
  if busy then ret None
  else
    match func with
    | Some f =>
        modify (set_writing true) ;;
        f ;;
        modify (set_writing false)
    | None => ret tt
    end ;;
    requestAnimationFrame write_frame ;;
    ret (Some (mkPromise write_frame)).

End Methods.

Arguments Promise T : clear implicits.
Arguments callback T : clear implicits.

(** ** The host's frame loop *)

(** The instance together with the frame callbacks booked for the coming
    frame, oldest first. *)
Record World (T : Type) : Type := mkWorld {
  self : Element T;
  pending : list (Frame T)
}.
Arguments mkWorld {T} _ _.
Arguments self {T} _.
Arguments pending {T} _.

(** A method call from outside any frame. *)
Definition call {T A : Type} (m : M T A) (w : World T) : World T * completion A :=
  let o := m (self w) in
  (mkWorld (st o) (pending w ++ registered o), res o).

(** The callbacks of one frame run in booking order; what they book goes to
    the frame after. *)
Fixpoint run_frames {T : Type} (fs : list (Frame T)) (e : Element T)
  : Element T * list (Frame T) * list (completion settlement) :=
  match fs with
  | [] => (e, [], [])
  | f :: fs' =>
      let o := frame_body f e in
      let '(e', booked, outs) := run_frames fs' (st o) in
      (e', (registered o ++ booked)%list, res o :: outs)
  end.

Definition tick {T : Type} (w : World T) : World T * list (completion settlement) :=
  let '(e, booked, outs) := run_frames (pending w) (self w) in
  (mkWorld e booked, outs).

Fixpoint ticks {T : Type} (n : nat) (w : World T) : World T :=
  match n with
  | O => w
  | S n' => ticks n' (tick w).1
  end.

(** ** A concrete DOM node *)

Record Dom : Type := mkDom {
  dom_classList : gset string;
  dom_attributes : gmap string string;
  dom_properties : gmap string jsval;
  dom_style : gmap string jsval
}.

#[global] Instance Dom_Host : Host Dom := {
  classList_add v d :=
    mkDom ({[v]} ∪ dom_classList d) (dom_attributes d) (dom_properties d) (dom_style d);
  classList_remove v d :=
    mkDom (dom_classList d ∖ {[v]}) (dom_attributes d) (dom_properties d) (dom_style d);
  classList_contains v d := bool_decide (v ∈ dom_classList d);
  dom_setAttribute k v d :=
    mkDom (dom_classList d) (<[k := String_ v]> (dom_attributes d)) (dom_properties d)
          (dom_style d);
  dom_setProperty k v d :=
    mkDom (dom_classList d) (dom_attributes d) (<[k := v]> (dom_properties d)) (dom_style d);
  style_set k v d :=
    mkDom (dom_classList d) (dom_attributes d) (dom_properties d) (<[k := v]> (dom_style d));
  style_get k d := default (VStr "") (dom_style d !! k)
}.

Definition blank : Dom := mkDom ∅ ∅ ∅ ∅.

(** ** A recording node *)

(** A DOM call as the node receives it. *)
Inductive dom_call : Type :=
| DomAdd (v : string)
| DomRemove (v : string)
| DomSetAttribute (k : string) (v : jsval)
| DomSetProperty (k : string) (v : jsval)
| DomSetStyle (k : string) (v : jsval).

(** A node that keeps the calls made on it, oldest first, and answers
    queries from them. *)
Record Recorder : Type := mkRecorder { calls : list dom_call }.

Definition recorded (c : dom_call) (n : Recorder) : Recorder :=
  mkRecorder (calls n ++ [c]).

#[global] Instance Recorder_Host : Host Recorder := {
  classList_add v := recorded (DomAdd v);
  classList_remove v := recorded (DomRemove v);
  classList_contains v n :=
    fold_left (fun has c =>
                 match c with
                 | DomAdd v' => if decide (v = v') then true else has
                 | DomRemove v' => if decide (v = v') then false else has
                 | _ => has
                 end) (calls n) false;
  dom_setAttribute k v := recorded (DomSetAttribute k v);
  dom_setProperty k v := recorded (DomSetProperty k v);
  style_set k v := recorded (DomSetStyle k v);
  style_get k n :=
    fold_left (fun cur c =>
                 match c with
                 | DomSetStyle k' v => if decide (k = k') then v else cur
                 | _ => cur
                 end) (calls n) (VStr "")
}.

(** ** Vocabulary for the statements *)

(** A pending class operation, as a key of the queue object. *)
Inductive classop : Type :=
| AddOp (className : string)
| RemoveOp (className : string).

Definition classop_entry (o : classop) : string * qentry :=
  match o with
  | AddOp c => ("addClass", QStr c)
  | RemoveOp c => ("removeClass", QStr c)
  end.

(** The queue object with its three maps, as [resetQueue] lays them out,
    followed by the class keys in the order they were created. *)
Definition layout (a p s : jsobj jsval) (ops : list classop) : jsobj qentry :=
  ("attributes", QMap a) :: ("properties", QMap p) :: ("styles", QMap s)
    :: map classop_entry ops.

(** [ops] after [addClass(c)]: the key keeps its place when it exists. *)
Fixpoint put_add (c : string) (ops : list classop) : list classop :=
  match ops with
  | [] => [AddOp c]
  | AddOp _ :: ops' => AddOp c :: ops'
  | RemoveOp r :: ops' => RemoveOp r :: put_add c ops'
  end.

Fixpoint put_remove (c : string) (ops : list classop) : list classop :=
  match ops with
  | [] => [RemoveOp c]
  | RemoveOp _ :: ops' => RemoveOp c :: ops'
  | AddOp a :: ops' => AddOp a :: put_remove c ops'
  end.

Section Applying.
Context {T : Type} `{Host T}.

Definition apply_classop (t : T) (o : classop) : T :=
  match o with
  | AddOp c => classList_add c t
  | RemoveOp c => classList_remove c t
  end.

(** The entries of a map applied to the node one after the other. *)
Definition apply_entries (op : string -> jsval -> T -> T) (m : jsobj jsval) (t : T) : T :=
  fold_left (fun t kv => op kv.1 kv.2 t) m t.

(** The flush in the order the specification gives: add-class,
    remove-class, the attributes, the properties, the styles, and the
    queue reset. *)
Definition flush_spec : M T ref :=
  let! q := gets queue in
  let! el := gets element in
  match el with
  | None => throw (JsError "No element in container. Cannot process queue.")
  | Some _ =>
      match obj_get "addClass" q with
      | Some (QStr c) => on_element (classList_add c)
      | _ => ret tt
      end ;;
      match obj_get "removeClass" q with
      | Some (QStr c) => on_element (classList_remove c)
      | _ => ret tt
      end ;;
      match obj_get "attributes" q with
      | Some (QMap m) => forOwn m (fun k v => on_element (dom_setAttribute k v))
      | _ => ret tt
      end ;;
      match obj_get "properties" q with
      | Some (QMap m) => forOwn m (fun k v => on_element (dom_setProperty k v))
      | _ => ret tt
      end ;;
      match obj_get "styles" q with
      | Some (QMap m) => forOwn m (fun k v => on_element (style_set k v))
      | _ => ret tt
      end ;;
      resetQueue ;;
      ret This
  end.

(** A call of one of the synchronous queue setters. *)
Inductive setter_call : Type :=
| CallAddClass (className : string)
| CallRemoveClass (className : string)
| CallSetAttribute (attribute : string) (value : jsval)
| CallSetAttributes (attributes : jsobj jsval)
| CallSetProperty (property : string) (value : jsval)
| CallSetProperties (properties : jsobj jsval)
| CallSetStyle (property : string) (value : jsval)
| CallSetStyles (properties : jsobj jsval)
| CallSetAria (key : string) (value : jsval)
| CallSetArias (keys : jsobj jsval).

Definition perform (tk : Toolkit) (c : setter_call) : M T ref :=
  match c with
  | CallAddClass n => addClass n
  | CallRemoveClass n => removeClass n
  | CallSetAttribute k v => setAttribute k v
  | CallSetAttributes m => setAttributes m
  | CallSetProperty k v => setProperty k v
  | CallSetProperties m => setProperties m
  | CallSetStyle k v => setStyle k v
  | CallSetStyles m => setStyles m
  | CallSetAria k v => setAria tk k v
  | CallSetArias m => setArias tk m
  end.

Fixpoint perform_all (tk : Toolkit) (cs : list setter_call) : M T unit :=
  match cs with
  | [] => ret tt
  | c :: cs' => perform tk c ;; perform_all tk cs'
  end.

(** A computation that neither looks at the node nor changes it, leaves
    the two flags alone and books no frame. *)
Definition queue_only {A : Type} (m : M T A) : Prop :=
  forall e : Element T,
    element (st (m e)) = element e
    /\ reading (st (m e)) = reading e
    /\ writing (st (m e)) = writing e
    /\ registered (m e) = []
    /\ forall el', m (set_element el' e) = Outcome (set_element el' (st (m e))) [] (res (m e)).
End Applying.
Arguments queue_only T {A} m.

(** The value of the last [setAttribute(k, _)] among the calls, if any;
    likewise for the two other keyed setters. *)
Fixpoint last_attribute (k : string) (cs : list setter_call) : option jsval :=
  match cs with
  | [] => None
  | c :: cs' =>
      match last_attribute k cs' with
      | Some v => Some v
      | None =>
          match c with
          | CallSetAttribute k' v => if decide (k = k') then Some v else None
          | _ => None
          end
      end
  end.

Fixpoint last_property (k : string) (cs : list setter_call) : option jsval :=
  match cs with
  | [] => None
  | c :: cs' =>
      match last_property k cs' with
      | Some v => Some v
      | None =>
          match c with
          | CallSetProperty k' v => if decide (k = k') then Some v else None
          | _ => None
          end
      end
  end.

Fixpoint last_style (k : string) (cs : list setter_call) : option jsval :=
  match cs with
  | [] => None
  | c :: cs' =>
      match last_style k cs' with
      | Some v => Some v
      | None =>
          match c with
          | CallSetStyle k' v => if decide (k = k') then Some v else None
          | _ => None
          end
      end
  end.

(** What a map of the queue holds under [k] after a run of keyed calls: the
    value [stored] by the last call with that key, if there was one, and
    what the map held [before] otherwise; under [__proto__] it holds what it
    held before whatever the calls. *)
Definition pending_value (k : string) (stored before : option jsval) : option jsval :=
  if decide (k = "__proto__") then before
  else match stored with
       | Some v => Some v
       | None => before
       end.

(** The calls the last-write-wins property speaks of. *)
Definition keyed_setter (c : setter_call) : bool :=
  match c with
  | CallSetAttribute _ _ | CallSetProperty _ _ | CallSetStyle _ _ => true
  | _ => false
  end.

(** How one setter call changes the class keys of the queue. *)
Definition class_step (ops : list classop) (c : setter_call) : list classop :=
  match c with
  | CallAddClass n => put_add n ops
  | CallRemoveClass n => put_remove n ops
  | _ => ops
  end.

(** The class keys a run of calls leaves, starting from [ops]. *)
Definition class_keys (ops : list classop) (cs : list setter_call) : list classop :=
  fold_left class_step cs ops.

(** ** Sample inputs *)

Definition thrower : callback Dom := throw (JsError "boom").
Definition idle : callback Dom := ret tt.
Definition fresh_world : World Dom := mkWorld (new_Element (Some blank)) [].
Definition aria_on : Toolkit := mkToolkit true.
Definition aria_off : Toolkit := mkToolkit false.

(** ** The rest of the class *)

Section Conceal.
Context {T : Type} `{Host T}.

(** Modelled from the spec: [transitionEnd] ([../event/transitionEnd] is
    not among the sources).  Called with the node and a hook, it arranges for
    the hook to run once any active transition finishes; what it yields here
    is the node with that arrangement made. *)
Variable transitionEnd : (T -> T) -> T -> T.

Variable Toolkit_ : Toolkit.

Definition conceal (dontHide : bool) : M T ref :=
  let! shown := hasClass "show" in
  (if shown && negb dontHide
   then on_element (transitionEnd (style_set "display" (VStr "none")))
   else ret tt) ;;
  removeClass "show" ;;
  addClass "hide" ;;
  setAria Toolkit_ "hidden" (VBool true).

(** A call of a method that works on the queue, made by a caller that
    carries on after an exception. *)
Inductive method_call : Type :=
| CallSetter (c : setter_call)
| CallReveal (dontShow : bool)
| CallConceal (dontHide : bool)
| CallProcessQueue
| CallResetQueue.

Definition invoke (c : method_call) : M T ref :=
  match c with
  | CallSetter s => perform Toolkit_ s
  | CallReveal b => reveal Toolkit_ b
  | CallConceal b => conceal b
  | CallProcessQueue => processQueue
  | CallResetQueue => resetQueue
  end.

Fixpoint after_calls (cs : list method_call) (e : Element T) : Element T :=
  match cs with
  | [] => e
  | c :: cs' => after_calls cs' (st (invoke c e))
  end.
End Conceal.

(** At most one pending add-class and one pending remove-class: the shapes
    the class keys of a queue can take. *)
Definition single_slots (ops : list classop) : bool :=
  match ops with
  | [] | [_] | [AddOp _; RemoveOp _] | [RemoveOp _; AddOp _] => true
  | _ => false
  end.

(** The remove-class key of the queue is older than any add-class key, so
    the flush removes first. *)
Definition remove_queued_first (ops : list classop) : bool :=
  match ops with
  | RemoveOp _ :: _ => true
  | _ => false
  end.

(** What the methods keep true of the instance. *)
Definition settled {T : Type} (e : Element T) : Prop :=
  (exists a p s ops, queue e = layout a p s ops /\ single_slots ops = true)
  /\ reading e = false /\ writing e = false.

(** A computation that at most changes the node: it books no frame, leaves
    the queue and the flags alone, and does not unset the node. *)
Definition node_only {T A : Type} (m : M T A) : Prop :=
  forall e : Element T,
    registered (m e) = []
    /\ queue (st (m e)) = queue e
    /\ reading (st (m e)) = reading e
    /\ writing (st (m e)) = writing e
    /\ (is_Some (element e) -> is_Some (element (st (m e)))).

(** How the flushing frame settles its promise, given how [processQueue]
    completed. *)
Definition settle_of {A : Type} (r : completion A) : settlement :=
  match r with
  | Normal _ => Resolved This
  | Throw _ => Rejected This
  end.

(** A map all of whose values are strings. *)
Definition strings_only (m : jsobj jsval) : Prop :=
  Forall (fun kv => exists str, kv.2 = VStr str) m.

(** The map a plural setter leaves, entry after entry. *)
Definition assign_all (coerce : jsval -> jsval) (m pending : jsobj jsval) : jsobj jsval :=
  fold_left (fun acc kv => obj_assign kv.1 (coerce kv.2) acc) m pending.

(** ** [Toolkit.create] *)

Section Create.
(** The plugin constructors handed to [create]. *)
Variable Callback : Type.

(** [String.prototype.toUpperCase], as applied to the first character. *)
Variable toUpperCase : string -> string.

(** What [$.fn] holds under a name: a method of jQuery's own or of another
    library, or the method [create] installs, which is determined by the
    three arguments of the call. *)
Inductive fn_entry : Type :=
| Foreign (tag : string)
| Installed (plugin : string) (callback : Callback) (collection : bool).

(** [$.fn] by name; [None] where [$.fn[name]] is undefined. *)
Definition jq_fn : Type := string -> option fn_entry.

Definition charAt0 (s : string) : string :=
  match s with
  | EmptyString => ""
  | String c _ => String c ""
  end.

Definition slice1 (s : string) : string :=
  match s with
  | EmptyString => ""
  | String _ rest => rest
  end.

(** The name [create] settles on. *)
Definition create_name (fn : jq_fn) (plugin : string) : string :=
  match fn plugin with
  | Some _ => "toolkit" +:+ toUpperCase (charAt0 plugin) +:+ slice1 plugin
  | None => plugin
  end.

Definition create (plugin : string) (callback : Callback) (collection : bool)
           (fn : jq_fn) : jq_fn :=
  fun k =>
    if decide (k = create_name fn plugin)
    then Some (Installed plugin callback collection)
    else fn k.
End Create.
Arguments Foreign {Callback} tag.
Arguments Installed {Callback} plugin callback collection.

(** [toUpperCase] on strings of ASCII letters, for examples. *)
Definition upper_ascii (c : Ascii.ascii) : Ascii.ascii :=
  let n := Ascii.nat_of_ascii c in
  if (97 <=? n)%nat && (n <=? 122)%nat then Ascii.ascii_of_nat (n - 32) else c.

Fixpoint toUpperCase_ascii (s : string) : string :=
  match s with
  | EmptyString => EmptyString
  | String c rest => String (upper_ascii c) (toUpperCase_ascii rest)
  end.

(** A [$.fn] where jQuery UI has taken the name [tooltip]. *)
Definition fn_with_tooltip : jq_fn unit :=
  fun k => if decide (k = "tooltip") then Some (Foreign "jquery-ui") else None.

(** ** [bem] *)

(** [Titon.options], as far as [bem] reads it. *)
Record TitonOptions : Type := mkTitonOptions {
  elementSeparator : string;
  modifierSeparator : string;
  autoNamespace : bool;
  namespace : string
}.

(** A string is truthy when it is not empty. *)
Definition truthy (s : string) : bool :=
  match s with
  | EmptyString => false
  | String _ _ => true
  end.

(** [bem(block, element = '', modifier = '')] *)
Definition bem (options : TitonOptions) (block element modifier : string) : string :=
  let block := if truthy element
               then block +:+ (elementSeparator options +:+ element)
               else block in
  let block := if truthy modifier
               then block +:+ (modifierSeparator options +:+ modifier)
               else block in
  if autoNamespace options then namespace options +:+ block else block.

(** ** Objects *)

Lemma obj_get_set_eq {V : Type} (k : string) (v : V) (o : jsobj V) :
  obj_get k (obj_set k v o) = Some v.
Proof.
  induction o as [|[k' v'] o IH]; simpl.
  - by rewrite decide_True.
  - destruct (decide (k = k')) as [->|Hne]; simpl.
    + by rewrite decide_True.
    + by rewrite decide_False.
Qed.

Lemma obj_get_set_ne {V : Type} (k k0 : string) (v : V) (o : jsobj V) :
  k0 ≠ k -> obj_get k0 (obj_set k v o) = obj_get k0 o.
Proof.
  intros Hne. induction o as [|[k' v'] o IH]; simpl.
  - by rewrite decide_False.
  - destruct (decide (k = k')) as [->|Hkk']; simpl.
    + by rewrite !decide_False.
    + destruct (decide (k0 = k')); [done | apply IH].
Qed.

Lemma obj_set_keys_in {V : Type} (k k0 : string) (v : V) (o : jsobj V) :
  k0 ∈ (obj_set k v o).*1 -> k0 = k \/ k0 ∈ o.*1.
Proof.
  induction o as [|[k' v'] o IH]; simpl.
  - intros Hin. apply list_elem_of_singleton in Hin. by left.
  - destruct (decide (k = k')) as [->|Hne]; simpl; intros Hin.
    + apply elem_of_cons in Hin as [->|Hin]; [by left | right; by apply elem_of_cons; right].
    + apply elem_of_cons in Hin as [->|Hin].
      * right. apply elem_of_cons. by left.
      * destruct (IH Hin) as [->|Hin']; [by left | right; by apply elem_of_cons; right].
Qed.

(** Assignment keeps the keys of an object distinct. *)
Lemma obj_set_NoDup {V : Type} (k : string) (v : V) (o : jsobj V) :
  NoDup o.*1 -> NoDup (obj_set k v o).*1.
Proof.
  induction o as [|[k' v'] o IH]; simpl; intros Hnd.
  - apply NoDup_singleton.
  - apply NoDup_cons in Hnd as [Hnotin Hnd].
    destruct (decide (k = k')) as [->|Hne]; simpl.
    + by apply NoDup_cons.
    + apply NoDup_cons. split; [| by apply IH].
      intros Hin. apply obj_set_keys_in in Hin as [->|Hin]; [done | by apply Hnotin].
Qed.

(** ** The monad *)

Lemma obj_get_absent {V : Type} (k : string) (o : jsobj V) :
  obj_get k o = None -> k ∉ o.*1.
Proof.
  induction o as [|[k' v'] o IH]; cbn [obj_get fmap list_fmap fst]; intros Hget.
  - apply not_elem_of_nil.
  - destruct (decide (k = k')) as [->|Hne]; [discriminate Hget |].
    apply not_elem_of_cons. split; [done | by apply IH].
Qed.

Lemma insert_index_get_eq {V : Type} (i : N) (k : string) (v : V) (o : jsobj V) :
  obj_get k o = None -> obj_get k (insert_index i k v o) = Some v.
Proof.
  induction o as [|[k' v'] o IH]; cbn [obj_get insert_index]; intros Hget.
  - by rewrite decide_True.
  - destruct (decide (k = k')) as [->|Hne]; [discriminate Hget |].
    destruct (array_index k') as [i'|]; [destruct (i <? i')%N |]; cbn [obj_get].
    + by rewrite decide_True.
    + rewrite decide_False by done. by apply IH.
    + by rewrite decide_True.
Qed.

Lemma insert_index_get_ne {V : Type} (i : N) (k k0 : string) (v : V) (o : jsobj V) :
  k0 ≠ k -> obj_get k0 (insert_index i k v o) = obj_get k0 o.
Proof.
  intros Hne. induction o as [|[k' v'] o IH]; cbn [obj_get insert_index].
  - by rewrite decide_False.
  - destruct (array_index k') as [i'|]; [destruct (i <? i')%N |]; cbn [obj_get].
    + by rewrite decide_False.
    + by rewrite IH.
    + by rewrite decide_False.
Qed.

Lemma insert_index_keys {V : Type} (i : N) (k : string) (v : V) (o : jsobj V) :
  (insert_index i k v o).*1 ≡ₚ k :: o.*1.
Proof.
  induction o as [|[k' v'] o IH]; cbn [insert_index]; [done |].
  destruct (array_index k') as [i'|]; [destruct (i <? i')%N |]; try done.
  cbn [fmap list_fmap fst] in *. rewrite IH. apply perm_swap.
Qed.

Lemma obj_get_assign_eq (k : string) (v : jsval) (o : jsobj jsval) :
  k ≠ "__proto__" -> obj_get k (obj_assign k v o) = Some v.
Proof.
  intros Hk. unfold obj_assign. rewrite decide_False by done.
  destruct (array_index k) as [i|]; [| apply obj_get_set_eq].
  destruct (obj_get k o) eqn:Hget; [apply obj_get_set_eq | by apply insert_index_get_eq].
Qed.

Lemma obj_get_assign_ne (k k0 : string) (v : jsval) (o : jsobj jsval) :
  k0 ≠ k -> obj_get k0 (obj_assign k v o) = obj_get k0 o.
Proof.
  intros Hne. unfold obj_assign. case_decide; [done |].
  destruct (array_index k) as [i|]; [| by apply obj_get_set_ne].
  destruct (obj_get k o); [by apply obj_get_set_ne | by apply insert_index_get_ne].
Qed.

Lemma obj_get_assign_proto (k : string) (v : jsval) (o : jsobj jsval) :
  obj_get "__proto__" (obj_assign k v o) = obj_get "__proto__" o.
Proof.
  destruct (decide (k = "__proto__")) as [->|Hk].
  - unfold obj_assign. by rewrite decide_True.
  - apply obj_get_assign_ne. by intros <-.
Qed.

Lemma obj_assign_NoDup (k : string) (v : jsval) (o : jsobj jsval) :
  NoDup o.*1 -> NoDup (obj_assign k v o).*1.
Proof.
  intros Hnd. unfold obj_assign. case_decide; [done |].
  destruct (array_index k) as [i|]; [| by apply obj_set_NoDup].
  destruct (obj_get k o) eqn:Hget; [by apply obj_set_NoDup |].
  rewrite insert_index_keys. apply NoDup_cons. split; [by apply obj_get_absent | done].
Qed.

(** One more assignment under [k0], seen through [pending_value]. *)
Lemma pending_value_step (k k0 : string) (v0 : jsval) (later : option jsval)
      (o : jsobj jsval) :
  pending_value k later (obj_get k (obj_assign k0 v0 o))
  = pending_value k (match later with
                     | Some v => Some v
                     | None => if decide (k = k0) then Some v0 else None
                     end) (obj_get k o).
Proof.
  unfold pending_value. destruct (decide (k = "__proto__")) as [->|Hk].
  - apply obj_get_assign_proto.
  - destruct later; [done |]. destruct (decide (k = k0)) as [<-|Hne].
    + by apply obj_get_assign_eq.
    + by apply obj_get_assign_ne.
Qed.

Section MonadFacts.
Context {T : Type} `{Host T}.

Lemma bind_normal {A B : Type} (m : M T A) (k : A -> M T B) (e e' : Element T) (a : A) :
  m e = Outcome e' [] (Normal a) -> bind m k e = k a e'.
Proof.
  intros Hm. unfold bind. rewrite Hm. simpl. by destruct (k a e').
Qed.

Lemma bind_throw {A B : Type} (m : M T A) (k : A -> M T B) (e e' : Element T)
      (fs : list (Frame T)) (err : jserror) :
  m e = Outcome e' fs (Throw err) -> bind m k e = Outcome e' fs (Throw err).
Proof. intros Hm. unfold bind. by rewrite Hm. Qed.

(** DOM calls made entry by entry amount to a fold over the entries. *)
Lemma forOwn_on_element (op : string -> jsval -> T -> T) (m : jsobj jsval)
      (t : T) (q : jsobj qentry) (r w : bool) :
  forOwn m (fun k v => on_element (op k v)) (mkElement (Some t) q r w)
  = Outcome (mkElement (Some (apply_entries op m t)) q r w) [] (Normal tt).
Proof.
  revert t. induction m as [|[k v] m IH]; intros t; [done |].
  cbn [forOwn]. erewrite bind_normal; [| reflexivity]. apply IH.
Qed.

Lemma forOwn_classops (ops : list classop) (t : T) (q : jsobj qentry) (r w : bool) :
  forOwn (map classop_entry ops) process_entry (mkElement (Some t) q r w)
  = Outcome (mkElement (Some (fold_left apply_classop ops t)) q r w) [] (Normal tt).
Proof.
  revert t. induction ops as [|o ops IH]; intros t; [done |].
  destruct o as [c|c]; cbn [map classop_entry forOwn];
    (erewrite bind_normal; [| reflexivity]); apply IH.
Qed.

(** *** The setters on a laid-out queue *)

Lemma map_put_add (c : string) (ops : list classop) :
  obj_set "addClass" (QStr c) (map classop_entry ops) = map classop_entry (put_add c ops).
Proof.
  induction ops as [|[a|r] ops IH]; [done | done |].
  cbn [map classop_entry obj_set put_add]. rewrite decide_False; [| done]. by rewrite IH.
Qed.

Lemma map_put_remove (c : string) (ops : list classop) :
  obj_set "removeClass" (QStr c) (map classop_entry ops)
  = map classop_entry (put_remove c ops).
Proof.
  induction ops as [|[a|r] ops IH]; [done | | done].
  cbn [map classop_entry obj_set put_remove]. rewrite decide_False; [| done]. by rewrite IH.
Qed.

Lemma addClass_layout el a p s ops r w c :
  addClass c (mkElement el (layout a p s ops) r w)
  = Outcome (mkElement (T:=T) el (layout a p s (put_add c ops)) r w) [] (Normal This).
Proof.
  unfold addClass, layout, bind, modify, ret, set_queue; simpl.
  by rewrite map_put_add.
Qed.

Lemma removeClass_layout el a p s ops r w c :
  removeClass c (mkElement el (layout a p s ops) r w)
  = Outcome (mkElement (T:=T) el (layout a p s (put_remove c ops)) r w) [] (Normal This).
Proof.
  unfold removeClass, layout, bind, modify, ret, set_queue; simpl.
  by rewrite map_put_remove.
Qed.

Lemma setAttribute_layout el a p s ops r w k v :
  setAttribute k v (mkElement el (layout a p s ops) r w)
  = Outcome (mkElement (T:=T) el (layout (obj_assign k (VStr (String_ v)) a) p s ops) r w)
            [] (Normal This).
Proof. reflexivity. Qed.

Lemma setProperty_layout el a p s ops r w k v :
  setProperty k v (mkElement el (layout a p s ops) r w)
  = Outcome (mkElement (T:=T) el (layout a (obj_assign k v p) s ops) r w) [] (Normal This).
Proof. reflexivity. Qed.

Lemma setStyle_layout el a p s ops r w k v :
  setStyle k v (mkElement el (layout a p s ops) r w)
  = Outcome (mkElement (T:=T) el (layout a p (obj_assign k v s) ops) r w) [] (Normal This).
Proof. reflexivity. Qed.

Lemma forOwn_layout (t : T) a p s ops q r w :
  forOwn (layout a p s ops) process_entry (mkElement (Some t) q r w)
  = Outcome
      (mkElement
         (Some (fold_left apply_classop ops
                  (apply_entries style_set s
                     (apply_entries dom_setProperty p
                        (apply_entries dom_setAttribute a t)))))
         q r w)
      [] (Normal tt).
Proof.
  unfold layout. cbn [forOwn].
  erewrite bind_normal; [| apply forOwn_on_element].
  erewrite bind_normal; [| apply forOwn_on_element].
  erewrite bind_normal; [| apply forOwn_on_element].
  apply forOwn_classops.
Qed.

(** The flush of a laid-out queue: the three maps in the order
    [resetQueue] created them, then the class keys in the order the calls
    created them, and a fresh queue. *)
Lemma processQueue_layout (t : T) a p s ops r w :
  processQueue (mkElement (Some t) (layout a p s ops) r w)
  = Outcome
      (mkElement
         (Some (fold_left apply_classop ops
                  (apply_entries style_set s
                     (apply_entries dom_setProperty p
                        (apply_entries dom_setAttribute a t)))))
         (layout [] [] [] []) r w)
      [] (Normal This).
Proof.
  unfold processQueue.
  erewrite bind_normal; [| reflexivity].
  erewrite bind_normal; [| reflexivity].
  cbn [element].
  erewrite bind_normal; [| apply forOwn_layout].
  reflexivity.
Qed.
End MonadFacts.

(** ** Reachable queues *)

Section Reachable.
Context {T : Type} `{Host T}.
Implicit Types (tk : Toolkit) (el : option T) (a p s : jsobj jsval) (ops : list classop).

(** [forOwn] over a map with a setter that keeps the queue laid out. *)
Lemma forOwn_keeps_layout (f : string -> jsval -> M T ref) (el : option T)
      (ops : list classop) (r w : bool) (m : jsobj jsval) :
  (forall k v a p s, exists a' p' s',
      f k v (mkElement el (layout a p s ops) r w)
      = Outcome (mkElement el (layout a' p' s' ops) r w) [] (Normal This)) ->
  forall a p s, exists a' p' s',
    forOwn m (fun k v => f k v ;; ret tt) (mkElement el (layout a p s ops) r w)
    = Outcome (mkElement el (layout a' p' s' ops) r w) [] (Normal tt).
Proof.
  intros Hf. induction m as [|[k v] m IH]; intros a p s.
  - by exists a, p, s.
  - destruct (Hf k v a p s) as (a1 & p1 & s1 & H1).
    destruct (IH a1 p1 s1) as (a2 & p2 & s2 & H2).
    exists a2, p2, s2. cbn [forOwn].
    erewrite bind_normal; [exact H2 |].
    erewrite bind_normal; [reflexivity | exact H1].
Qed.

Lemma setAria_at_layout tk (depth : nat) el a p s ops r w key value :
  depth ≠ 0 ->
  exists a',
    setAria_at tk depth key value (mkElement el (layout a p s ops) r w)
    = Outcome (mkElement (T:=T) el (layout a' p s ops) r w) [] (Normal This).
Proof.
  intros Hdepth. destruct depth as [|depth]; [done |].
  destruct tk as [[|]]; cbn [setAria_at aria negb].
  - destruct (decide (key = "toggled")) as [->|Hkey].
    + eexists. destruct depth; reflexivity.
    + eexists. apply setAttribute_layout.
  - by exists a.
Qed.

(** The fan-out of ["toggled"] needs one level of nesting and no more. *)
Lemma setAria_at_enough tk (depth : nat) key value (e : Element T) :
  setAria_at tk (S depth) key value e = setAria tk key value e.
Proof.
  unfold setAria. destruct tk as [[|]]; cbn [setAria_at aria negb]; [| done].
  destruct (decide (key = "toggled")); [| done].
  destruct depth; reflexivity.
Qed.

Lemma perform_layout tk (c : setter_call) el a p s ops r w :
  exists a' p' s',
    perform tk c (mkElement el (layout a p s ops) r w)
    = Outcome (mkElement (T:=T) el (layout a' p' s' (class_step ops c)) r w) [] (Normal This).
Proof.
  destruct c as [n|n|k v|m|k v|m|k v|m|k v|m]; cbn [perform class_step].
  - exists a, p, s. apply addClass_layout.
  - exists a, p, s. apply removeClass_layout.
  - eexists _, p, s. apply setAttribute_layout.
  - destruct (forOwn_keeps_layout setAttribute el ops r w m) with (a := a) (p := p) (s := s)
      as (a' & p' & s' & Hm).
    { intros. eexists _, _, _. apply setAttribute_layout. }
    exists a', p', s'. unfold setAttributes. by erewrite bind_normal.
  - eexists a, _, s. apply setProperty_layout.
  - destruct (forOwn_keeps_layout setProperty el ops r w m) with (a := a) (p := p) (s := s)
      as (a' & p' & s' & Hm).
    { intros. eexists _, _, _. apply setProperty_layout. }
    exists a', p', s'. unfold setProperties. by erewrite bind_normal.
  - eexists a, p, _. apply setStyle_layout.
  - destruct (forOwn_keeps_layout setStyle el ops r w m) with (a := a) (p := p) (s := s)
      as (a' & p' & s' & Hm).
    { intros. eexists _, _, _. apply setStyle_layout. }
    exists a', p', s'. unfold setStyles. by erewrite bind_normal.
  - destruct (setAria_at_layout tk 1 el a p s ops r w k v) as (a' & Ha); [done |].
    by exists a', p, s.
  - destruct (forOwn_keeps_layout (setAria tk) el ops r w m) with (a := a) (p := p) (s := s)
      as (a' & p' & s' & Hm).
    { intros k v a1 p1 s1.
      destruct (setAria_at_layout tk 1 el a1 p1 s1 ops r w k v) as (a' & Ha); [done |].
      by exists a', p1, s1. }
    exists a', p', s'. unfold setArias. by erewrite bind_normal.
Qed.

(** Every queue the setters can build is laid out: the three maps first,
    then the class keys in the order their first call created them. *)
Lemma perform_all_layout tk (cs : list setter_call) el a p s ops r w :
  exists a' p' s',
    perform_all tk cs (mkElement el (layout a p s ops) r w)
    = Outcome (mkElement (T:=T) el (layout a' p' s' (class_keys ops cs)) r w) [] (Normal tt).
Proof.
  revert a p s ops. induction cs as [|c cs IH]; intros a p s ops.
  - by exists a, p, s.
  - destruct (perform_layout tk c el a p s ops r w) as (a1 & p1 & s1 & H1).
    destruct (IH a1 p1 s1 (class_step ops c)) as (a2 & p2 & s2 & H2).
    exists a2, p2, s2. cbn [perform_all class_keys fold_left].
    by erewrite bind_normal.
Qed.

(** C1, as amended.  Whatever setter calls were made on a new (or just
    flushed) instance, [processQueue] applies the pending attributes, then
    the pending properties, then the pending styles, and only then the
    pending add-class and remove-class, these two in the order in which their
    keys were first queued; it then leaves the queue as [resetQueue] makes
    it. *)
Theorem processQueue_follows_key_order tk (t : T) (cs : list setter_call) (r w : bool) :
  let e := st (perform_all tk cs (mkElement (Some t) (layout [] [] [] []) r w)) in
  exists a p s,
    queue e = layout a p s (class_keys [] cs)
    /\ processQueue e
       = Outcome
           (mkElement
              (Some (fold_left apply_classop (class_keys [] cs)
                       (apply_entries style_set s
                          (apply_entries dom_setProperty p
                             (apply_entries dom_setAttribute a t)))))
              (layout [] [] [] []) r w)
           [] (Normal This).
Proof.
  intros e.
  destruct (perform_all_layout tk cs (Some t) [] [] [] [] r w) as (a & p & s & Hcs).
  exists a, p, s. subst e. rewrite Hcs. cbn [st queue].
  split; [reflexivity | apply processQueue_layout].
Qed.
End Reachable.

(** C1, counterexample.  With remove-class queued before add-class for the
    same name, [processQueue] removes first and adds last, so the class
    stays; in the order the claim gives (add, then remove) it would be
    gone.  And with an attribute and a class pending, the node receives the
    attribute first and the class after it, not the class first. *)
Lemma processQueue_not_in_claimed_order :
  let e := st ((removeClass "a" ;; addClass "a") (new_Element (Some blank))) in
  let e' := st ((addClass "a" ;; setAttribute "k" (VStr "v"))
                  (new_Element (Some (mkRecorder [])))) in
  queue e = layout [] [] [] [RemoveOp "a"; AddOp "a"]
  /\ classList_contains "a" <$> element (st (processQueue e)) = Some true
  /\ classList_contains "a" <$> element (st (flush_spec e)) = Some false
  /\ processQueue e ≠ flush_spec e
  /\ calls <$> element (st (processQueue e'))
     = Some [DomSetAttribute "k" (VStr "v"); DomAdd "a"]
  /\ calls <$> element (st (flush_spec e'))
     = Some [DomAdd "a"; DomSetAttribute "k" (VStr "v")].
Proof.
  cbv zeta.
  assert (Hcode : classList_contains "a" <$>
            element (st (processQueue
              (st ((removeClass "a" ;; addClass "a") (new_Element (Some blank))))))
          = Some true) by (vm_compute; reflexivity).
  assert (Hspec : classList_contains "a" <$>
            element (st (flush_spec
              (st ((removeClass "a" ;; addClass "a") (new_Element (Some blank))))))
          = Some false) by (vm_compute; reflexivity).
  split_and!; [reflexivity | exact Hcode | exact Hspec | | reflexivity | reflexivity].
  intros Heq. rewrite Heq in Hcode. congruence.
Qed.

(** ** Setters and the target *)

Section QueueOnly.
Context {T : Type} `{Host T}.

Lemma queue_only_ret {A : Type} (a : A) : queue_only T (ret (T:=T) a).
Proof. intros e. by repeat split. Qed.

Lemma queue_only_throw {A : Type} (err : jserror) : queue_only T (throw (T:=T) (A:=A) err).
Proof. intros e. by repeat split. Qed.

Lemma queue_only_gets_queue : queue_only T (gets (T:=T) queue).
Proof. intros e. by repeat split. Qed.

Lemma queue_only_modify (f : jsobj qentry -> jsobj qentry) :
  queue_only T (modify (T:=T) (fun this => set_queue (f (queue this)) this)).
Proof. intros e. by repeat split. Qed.

Lemma queue_only_bind {A B : Type} (m : M T A) (k : A -> M T B) :
  queue_only T m -> (forall a, queue_only T (k a)) -> queue_only T (bind m k).
Proof.
  intros Hm Hk e. destruct (Hm e) as (Hel & Hr & Hw & Hreg & Hpar).
  assert (Hpar' : forall el', bind m k (set_element el' e)
            = match res (m e) with
              | Normal a => k a (set_element el' (st (m e)))
              | Throw err => Outcome (set_element el' (st (m e))) [] (Throw err)
              end).
  { intros el'. unfold bind at 1. rewrite Hpar. cbn [res st registered].
    destruct (res (m e)) as [a|err]; [| done]. by destruct (k a _). }
  assert (Hb : bind m k e
            = match res (m e) with
              | Normal a => k a (st (m e))
              | Throw err => Outcome (st (m e)) [] (Throw err)
              end).
  { unfold bind. rewrite Hreg.
    destruct (res (m e)) as [a|err]; [| done]. by destruct (k a _). }
  rewrite Hb. destruct (res (m e)) as [a|err] eqn:Hres.
  - destruct (Hk a (st (m e))) as (Hel2 & Hr2 & Hw2 & Hreg2 & Hpar2).
    split_and!; [congruence | congruence | congruence | done |].
    intros el'. rewrite Hpar'. apply Hpar2.
  - split_and!; try done.
Qed.

Lemma queue_only_forOwn {V : Type} (o : jsobj V) (f : string -> V -> M T unit) :
  (forall k v, queue_only T (f k v)) -> queue_only T (forOwn o f).
Proof.
  intros Hf. induction o as [|[k v] o IH]; cbn [forOwn].
  - apply queue_only_ret.
  - apply queue_only_bind; [apply Hf | intros _; apply IH].
Qed.

Lemma queue_only_addClass (n : string) : queue_only T (addClass n).
Proof.
  apply queue_only_bind; [| intros _; apply queue_only_ret].
  apply (queue_only_modify (obj_set "addClass" (QStr n))).
Qed.

Lemma queue_only_removeClass (n : string) : queue_only T (removeClass n).
Proof.
  apply queue_only_bind; [| intros _; apply queue_only_ret].
  apply (queue_only_modify (obj_set "removeClass" (QStr n))).
Qed.

Lemma queue_only_queue_assign (name key : string) (value : jsval) :
  queue_only T (queue_assign name key value).
Proof.
  apply queue_only_bind; [apply queue_only_gets_queue |].
  intros q. destruct (obj_get name q) as [[c|m]|]; try apply queue_only_throw.
  apply (queue_only_modify (fun _ => obj_set name (QMap (obj_assign key value m)) q)).
Qed.

Lemma queue_only_setAttribute k v : queue_only T (setAttribute k v).
Proof.
  apply queue_only_bind; [apply queue_only_queue_assign | intros _; apply queue_only_ret].
Qed.

Lemma queue_only_setProperty k v : queue_only T (setProperty k v).
Proof.
  apply queue_only_bind; [apply queue_only_queue_assign | intros _; apply queue_only_ret].
Qed.

Lemma queue_only_setStyle k v : queue_only T (setStyle k v).
Proof.
  apply queue_only_bind; [apply queue_only_queue_assign | intros _; apply queue_only_ret].
Qed.

(** A setter applied per entry, the way the plural setters do it. *)
Lemma queue_only_each (f : string -> jsval -> M T ref) (m : jsobj jsval) :
  (forall k v, queue_only T (f k v)) ->
  queue_only T (forOwn m (fun k v => f k v ;; ret tt) ;; ret This).
Proof.
  intros Hf. apply queue_only_bind; [| intros _; apply queue_only_ret].
  apply queue_only_forOwn. intros k v.
  apply queue_only_bind; [apply Hf | intros _; apply queue_only_ret].
Qed.

Lemma queue_only_setAria_at tk depth k v : queue_only T (setAria_at tk depth k v).
Proof.
  revert k v. induction depth as [|depth IH]; intros k v; cbn [setAria_at];
    destruct (negb (aria tk)); try apply queue_only_ret;
    destruct (decide (k = "toggled")); try apply queue_only_setAttribute.
  - apply queue_only_throw.
  - apply (queue_only_each (setAria_at tk depth)), IH.
Qed.

Lemma queue_only_perform tk (c : setter_call) : queue_only T (perform tk c).
Proof.
  destruct c; cbn [perform].
  - apply queue_only_addClass.
  - apply queue_only_removeClass.
  - apply queue_only_setAttribute.
  - apply queue_only_each, queue_only_setAttribute.
  - apply queue_only_setProperty.
  - apply queue_only_each, queue_only_setProperty.
  - apply queue_only_setStyle.
  - apply queue_only_each, queue_only_setStyle.
  - apply queue_only_setAria_at.
  - apply (queue_only_each (setAria tk)). intros. apply queue_only_setAria_at.
Qed.

Lemma queue_only_perform_all tk (cs : list setter_call) : queue_only T (perform_all tk cs).
Proof.
  induction cs as [|c cs IH]; cbn [perform_all].
  - apply queue_only_ret.
  - apply queue_only_bind; [apply queue_only_perform | intros _; apply IH].
Qed.

(** C10.  A call of any synchronous queue setter, whether it returns or
    throws, leaves the node and the two flags as they were and books no
    frame; and it never looks at the node: with any other node in its place
    the call does the same to the queue and completes the same way. *)
Theorem setters_touch_only_the_queue tk (c : setter_call) (e : Element T) (el' : option T) :
  element (st (perform tk c e)) = element e
  /\ reading (st (perform tk c e)) = reading e
  /\ writing (st (perform tk c e)) = writing e
  /\ registered (perform tk c e) = []
  /\ perform tk c (set_element el' e)
     = Outcome (set_element el' (st (perform tk c e))) [] (res (perform tk c e)).
Proof.
  destruct (queue_only_perform tk c e) as (Hel & Hr & Hw & Hreg & Hpar).
  repeat split; try assumption. apply Hpar.
Qed.

(** C7.  [hasClass] answers from the node alone: whatever the queue holds
    and whatever setter calls are still unflushed, it returns whether the
    node carries the class now.  So after [addClass(x)] without a flush it
    returns [false] when the node did not carry [x]. *)
Theorem hasClass_ignores_pending tk (t : T) (q : jsobj qentry) (r w : bool)
        (cs : list setter_call) (name x : string) :
  res (hasClass name (st (perform_all tk cs (mkElement (Some t) q r w))))
  = Normal (classList_contains name t)
  /\ (classList_contains x t = false ->
      res (hasClass x (st (addClass x (mkElement (Some t) q r w)))) = Normal false).
Proof.
  split.
  - destruct (queue_only_perform_all tk cs (mkElement (Some t) q r w)) as (Hel & _).
    unfold hasClass, bind, gets. cbn [res st]. rewrite Hel. reflexivity.
  - intros Hx. unfold hasClass, bind, gets. cbn. by rewrite Hx.
Qed.

(** C9.  With ARIA support switched off, [setAria] returns [this] and
    leaves the instance, hence the queue and the node behind it, exactly as
    it was. *)
Theorem setAria_without_aria_is_noop tk (key : string) (value : jsval) (e : Element T) :
  aria tk = false -> setAria tk key value e = Outcome e [] (Normal This).
Proof.
  intros Hoff. unfold setAria. cbn [setAria_at]. rewrite Hoff. reflexivity.
Qed.
End QueueOnly.

Lemma hasClass_ignores_pending_witness :
  res (hasClass "x" (st (perform_all aria_on [CallAddClass "x"; CallSetStyle "color" (VStr "red")]
                          (new_Element (Some blank)))))
  = Normal false
  /\ res (hasClass "x" (st (addClass "x" (new_Element (Some blank))))) = Normal false.
Proof.
  split.
  - exact (proj1 (hasClass_ignores_pending aria_on blank _ false false
                    [CallAddClass "x"; CallSetStyle "color" (VStr "red")] "x" "x")).
  - apply (proj2 (hasClass_ignores_pending aria_on blank _ false false [] "x" "x")).
    reflexivity.
Defined.

Lemma setAria_without_aria_is_noop_witness :
  aria aria_off = false
  /\ setAria aria_off "hidden" (VBool true) (new_Element (Some blank))
     = Outcome (new_Element (Some blank)) [] (Normal This).
Proof.
  split; [reflexivity |].
  apply (setAria_without_aria_is_noop aria_off "hidden" (VBool true)). reflexivity.
Defined.

(** ** Flushing onto the concrete node *)

Section OnDom.
#[local] Set Warnings "-clear-no-such-hyp".
Implicit Types (d : Dom) (m a p s : jsobj jsval) (ops : list classop).

Lemma obj_get_fresh {V : Type} (k : string) (o : jsobj V) :
  k ∉ o.*1 -> obj_get k o = None.
Proof.
  induction o as [|[k' v'] o IH]; [done |]. cbn [fmap list_fmap fst obj_get].
  intros Hnotin. apply not_elem_of_cons in Hnotin as [Hne Hnotin].
  rewrite decide_False; [by apply IH | done].
Qed.

Lemma attributes_after_entries m d (k : string) :
  NoDup m.*1 ->
  dom_attributes (apply_entries dom_setAttribute m d) !! k
  = match obj_get k m with
    | Some v => Some (String_ v)
    | None => dom_attributes d !! k
    end.
Proof.
  revert d. induction m as [|[k0 v0] m IH]; intros d Hnd; [done |].
  cbn [fmap list_fmap fst] in Hnd. apply NoDup_cons in Hnd as [Hfresh Hnd].
  unfold apply_entries in *. cbn [fold_left obj_get fst snd]. rewrite IH; [| done].
  destruct (decide (k = k0)) as [->|Hne].
  - rewrite obj_get_fresh; [| done]. cbn. by rewrite lookup_insert_eq.
  - destruct (obj_get k m); [done |]. cbn. by rewrite lookup_insert_ne.
Qed.

Lemma properties_after_entries m d (k : string) :
  NoDup m.*1 ->
  dom_properties (apply_entries dom_setProperty m d) !! k
  = match obj_get k m with
    | Some v => Some v
    | None => dom_properties d !! k
    end.
Proof.
  revert d. induction m as [|[k0 v0] m IH]; intros d Hnd; [done |].
  cbn [fmap list_fmap fst] in Hnd. apply NoDup_cons in Hnd as [Hfresh Hnd].
  unfold apply_entries in *. cbn [fold_left obj_get fst snd]. rewrite IH; [| done].
  destruct (decide (k = k0)) as [->|Hne].
  - rewrite obj_get_fresh; [| done]. cbn. by rewrite lookup_insert_eq.
  - destruct (obj_get k m); [done |]. cbn. by rewrite lookup_insert_ne.
Qed.

Lemma style_after_entries m d (k : string) :
  NoDup m.*1 ->
  dom_style (apply_entries style_set m d) !! k
  = match obj_get k m with
    | Some v => Some v
    | None => dom_style d !! k
    end.
Proof.
  revert d. induction m as [|[k0 v0] m IH]; intros d Hnd; [done |].
  cbn [fmap list_fmap fst] in Hnd. apply NoDup_cons in Hnd as [Hfresh Hnd].
  unfold apply_entries in *. cbn [fold_left obj_get fst snd]. rewrite IH; [| done].
  destruct (decide (k = k0)) as [->|Hne].
  - rewrite obj_get_fresh; [| done]. cbn. by rewrite lookup_insert_eq.
  - destruct (obj_get k m); [done |]. cbn. by rewrite lookup_insert_ne.
Qed.

(** A part of the node that every step of a fold leaves alone is left alone
    by the fold. *)
Lemma fold_keeps {A B : Type} (proj : Dom -> B) (step : Dom -> A -> Dom) (l : list A) d :
  (forall d x, proj (step d x) = proj d) -> proj (fold_left step l d) = proj d.
Proof.
  intros Hstep. revert d. induction l as [|x l IH]; intros d; [done |].
  cbn [fold_left]. by rewrite IH.
Qed.

Lemma entries_keep {B : Type} (proj : Dom -> B) (op : string -> jsval -> Dom -> Dom) m d :
  (forall k v d, proj (op k v d) = proj d) -> proj (apply_entries op m d) = proj d.
Proof. intros Hop. apply fold_keeps. intros d0 [k v]. apply Hop. Qed.

Lemma classops_keep {B : Type} (proj : Dom -> B) ops d :
  (forall c d, proj (classList_add c d) = proj d) ->
  (forall c d, proj (classList_remove c d) = proj d) ->
  proj (fold_left apply_classop ops d) = proj d.
Proof. intros Hadd Hrem. apply fold_keeps. intros d0 [c|c]; [apply Hadd | apply Hrem]. Qed.

(** The node after a flush, store by store. *)
Lemma flushed_classList a p s ops d :
  dom_classList (fold_left apply_classop ops
                   (apply_entries style_set s
                      (apply_entries dom_setProperty p (apply_entries dom_setAttribute a d))))
  = dom_classList (fold_left apply_classop ops d).
Proof.
  assert (Hbase : dom_classList
                    (apply_entries style_set s
                       (apply_entries dom_setProperty p (apply_entries dom_setAttribute a d)))
                  = dom_classList d).
  { by rewrite !entries_keep. }
  revert Hbase. generalize (apply_entries style_set s
    (apply_entries dom_setProperty p (apply_entries dom_setAttribute a d))).
  intros d1. revert d d1. induction ops as [|o ops IH]; intros d d1 Hbase; [done |].
  cbn [fold_left]. apply IH. destruct o; cbn; by rewrite Hbase.
Qed.

Lemma flushed_attributes a p s ops d :
  dom_attributes (fold_left apply_classop ops
                    (apply_entries style_set s
                       (apply_entries dom_setProperty p (apply_entries dom_setAttribute a d))))
  = dom_attributes (apply_entries dom_setAttribute a d).
Proof.
  rewrite classops_keep; [| done | done].
  rewrite (entries_keep dom_attributes style_set); [| done].
  by rewrite (entries_keep dom_attributes dom_setProperty).
Qed.

Lemma flushed_properties a p s ops d :
  dom_properties (fold_left apply_classop ops
                    (apply_entries style_set s
                       (apply_entries dom_setProperty p (apply_entries dom_setAttribute a d))))
  = dom_properties (apply_entries dom_setProperty p (apply_entries dom_setAttribute a d)).
Proof.
  rewrite classops_keep; [| done | done].
  by rewrite (entries_keep dom_properties style_set).
Qed.

Lemma flushed_style a p s ops d :
  dom_style (fold_left apply_classop ops
               (apply_entries style_set s
                  (apply_entries dom_setProperty p (apply_entries dom_setAttribute a d))))
  = dom_style (apply_entries style_set s
                 (apply_entries dom_setProperty p (apply_entries dom_setAttribute a d))).
Proof. by rewrite classops_keep. Qed.

(** C5.  Whatever is pending, the class keys in any of the shapes a queue
    can have ([single_slots]): [addClass("show")], [removeClass("show")] and
    a flush leave the queue as [resetQueue] makes it, with no pending class,
    attribute, property or style, and the node without the class ["show"],
    unless a remove-class was pending already and was queued before any
    add-class: then the flush removes first and adds last, and the node
    carries ["show"]. *)
Theorem show_is_gone_unless_remove_was_first d a p s ops (r w : bool) :
  single_slots ops = true ->
  exists d',
    (addClass "show" ;; removeClass "show" ;; processQueue)
      (mkElement (Some d) (layout a p s ops) r w)
    = Outcome (mkElement (Some d') (layout [] [] [] []) r w) [] (Normal This)
    /\ classList_contains "show" d' = remove_queued_first ops.
Proof.
  intros Hslots. eexists. split.
  - erewrite bind_normal; [| apply addClass_layout].
    erewrite bind_normal; [| apply removeClass_layout].
    apply processQueue_layout.
  - cbn [classList_contains Dom_Host]. rewrite flushed_classList.
    destruct ops as [|[c1|c1] [|[c2|c2] [|? ?]]]; try discriminate Hslots; cbn.
    + apply bool_decide_eq_false. set_solver.
    + apply bool_decide_eq_false. set_solver.
    + apply bool_decide_eq_false. set_solver.
    + apply bool_decide_eq_true. set_solver.
    + apply bool_decide_eq_true. set_solver.
Qed.


(** The three keyed setters on their own: what a run of calls leaves pending
    under each key. *)
Lemma keyed_calls_pending {T : Type} `{Host T} tk (el : option T) ops (r w : bool)
      (cs : list setter_call) :
  forallb keyed_setter cs = true ->
  forall a p s, NoDup a.*1 -> NoDup p.*1 -> NoDup s.*1 ->
  exists a' p' s',
    perform_all tk cs (mkElement el (layout a p s ops) r w)
    = Outcome (mkElement el (layout a' p' s' ops) r w) [] (Normal tt)
    /\ NoDup a'.*1 /\ NoDup p'.*1 /\ NoDup s'.*1
    /\ forall k,
        obj_get k a' = pending_value k ((fun v => VStr (String_ v)) <$> last_attribute k cs)
                                     (obj_get k a)
        /\ obj_get k p' = pending_value k (last_property k cs) (obj_get k p)
        /\ obj_get k s' = pending_value k (last_style k cs) (obj_get k s).
Proof.
  induction cs as [|c cs IH]; intros Hkeyed a p s Ha Hp Hs.
  - exists a, p, s. split_and!; try done.
    intros k. unfold pending_value. cbn. by case_decide.
  - cbn [forallb] in Hkeyed. apply andb_prop in Hkeyed as [Hc Hcs].
    destruct c as [|?|k0 v0|?|k0 v0|?|k0 v0|?|?|?]; try discriminate Hc.
    + destruct (IH Hcs (obj_assign k0 (VStr (String_ v0)) a) p s) as
        (a' & p' & s' & Hrun & Ha' & Hp' & Hs' & Hget); try done.
      { by apply obj_assign_NoDup. }
      exists a', p', s'. split_and!; try done.
      { cbn [perform_all perform]. erewrite bind_normal; [exact Hrun |].
        apply setAttribute_layout. }
      intros k. destruct (Hget k) as (Hka & Hkp & Hks).
      cbn [last_attribute last_property last_style]. split_and!.
      * rewrite Hka, pending_value_step. f_equal.
        destruct (last_attribute k cs); [done |]. by case_decide.
      * rewrite Hkp. by destruct (last_property k cs).
      * rewrite Hks. by destruct (last_style k cs).
    + destruct (IH Hcs a (obj_assign k0 v0 p) s) as
        (a' & p' & s' & Hrun & Ha' & Hp' & Hs' & Hget); try done.
      { by apply obj_assign_NoDup. }
      exists a', p', s'. split_and!; try done.
      { cbn [perform_all perform]. erewrite bind_normal; [exact Hrun |].
        apply setProperty_layout. }
      intros k. destruct (Hget k) as (Hka & Hkp & Hks).
      cbn [last_attribute last_property last_style]. split_and!.
      * rewrite Hka. by destruct (last_attribute k cs).
      * by rewrite Hkp, pending_value_step.
      * rewrite Hks. by destruct (last_style k cs).
    + destruct (IH Hcs a p (obj_assign k0 v0 s)) as
        (a' & p' & s' & Hrun & Ha' & Hp' & Hs' & Hget); try done.
      { by apply obj_assign_NoDup. }
      exists a', p', s'. split_and!; try done.
      { cbn [perform_all perform]. erewrite bind_normal; [exact Hrun |].
        apply setStyle_layout. }
      intros k. destruct (Hget k) as (Hka & Hkp & Hks).
      cbn [last_attribute last_property last_style]. split_and!.
      * rewrite Hka. by destruct (last_attribute k cs).
      * rewrite Hkp. by destruct (last_property k cs).
      * by rewrite Hks, pending_value_step.
Qed.

(** C4.  After any run of [setAttribute], [setProperty] and [setStyle]
    calls, the flush makes one DOM call for each key pending in each of the
    three maps, and no other call but those of the pending classes.  The
    keys of a map are distinct, and under every key other than [__proto__]
    that a call has named the map holds the value of the last call with that
    key (for an attribute that value turned into a string), not a list of
    the values given; a key no call has named holds what was pending
    before. *)
Theorem last_write_wins_except_proto {T : Type} `{Host T} tk (t : T) a0 p0 s0 ops
        (r w : bool) (cs : list setter_call) :
  NoDup a0.*1 -> NoDup p0.*1 -> NoDup s0.*1 ->
  forallb keyed_setter cs = true ->
  exists a' p' s',
    (perform_all tk cs ;; processQueue) (mkElement (Some t) (layout a0 p0 s0 ops) r w)
    = Outcome (mkElement
                 (Some (fold_left apply_classop ops
                          (apply_entries style_set s'
                             (apply_entries dom_setProperty p'
                                (apply_entries dom_setAttribute a' t)))))
                 (layout [] [] [] []) r w) [] (Normal This)
    /\ NoDup a'.*1 /\ NoDup p'.*1 /\ NoDup s'.*1
    /\ forall k,
        k ≠ "__proto__" ->
        obj_get k a' = match last_attribute k cs with
                       | Some v => Some (VStr (String_ v))
                       | None => obj_get k a0
                       end
        /\ obj_get k p' = match last_property k cs with
                          | Some v => Some v
                          | None => obj_get k p0
                          end
        /\ obj_get k s' = match last_style k cs with
                          | Some v => Some v
                          | None => obj_get k s0
                          end.
Proof.
  intros Ha Hp Hs Hkeyed.
  destruct (keyed_calls_pending tk (Some t) ops r w cs Hkeyed a0 p0 s0 Ha Hp Hs)
    as (a' & p' & s' & Hrun & Ha' & Hp' & Hs' & Hget).
  exists a', p', s'. split_and!; try done.
  { erewrite bind_normal; [| exact Hrun]. apply processQueue_layout. }
  intros k Hk. destruct (Hget k) as (Hka & Hkp & Hks).
  unfold pending_value in Hka, Hkp, Hks. rewrite decide_False in Hka, Hkp, Hks by done.
  split_and!; [| done | done].
  rewrite Hka. by destruct (last_attribute k cs).
Qed.

(** On the concrete node: what its stores hold after the flush, under every
    key other than [__proto__] that a call has named. *)
Lemma last_write_reaches_the_node tk d a0 p0 s0 ops (r w : bool) (cs : list setter_call) :
  NoDup a0.*1 -> NoDup p0.*1 -> NoDup s0.*1 ->
  forallb keyed_setter cs = true ->
  exists d',
    (perform_all tk cs ;; processQueue) (mkElement (Some d) (layout a0 p0 s0 ops) r w)
    = Outcome (mkElement (Some d') (layout [] [] [] []) r w) [] (Normal This)
    /\ forall k v,
        k ≠ "__proto__" ->
        (last_attribute k cs = Some v -> dom_attributes d' !! k = Some (String_ v))
        /\ (last_property k cs = Some v -> dom_properties d' !! k = Some v)
        /\ (last_style k cs = Some v -> dom_style d' !! k = Some v).
Proof.
  intros Ha Hp Hs Hkeyed.
  destruct (keyed_calls_pending tk (Some d) ops r w cs Hkeyed a0 p0 s0 Ha Hp Hs)
    as (a' & p' & s' & Hrun & Ha' & Hp' & Hs' & Hget).
  eexists. split.
  { erewrite bind_normal; [| exact Hrun]. apply processQueue_layout. }
  intros k v Hk. destruct (Hget k) as (Hka & Hkp & Hks).
  unfold pending_value in Hka, Hkp, Hks. rewrite decide_False in Hka, Hkp, Hks by done.
  split_and!; intros Hlast.
  - rewrite flushed_attributes, attributes_after_entries, Hka, Hlast; done.
  - rewrite flushed_properties, properties_after_entries, Hkp, Hlast; done.
  - rewrite flushed_style, style_after_entries, Hks, Hlast; done.
Qed.
End OnDom.


Lemma show_is_gone_unless_remove_was_first_witness :
  exists d',
    (addClass "show" ;; removeClass "show" ;; processQueue)
      (mkElement (Some (mkDom {["show"]} ∅ ∅ ∅)) (layout [] [] [] [AddOp "open"]) false false)
    = Outcome (mkElement (Some d') (layout [] [] [] []) false false) [] (Normal This)
    /\ classList_contains "show" d' = false.
Proof.
  apply (show_is_gone_unless_remove_was_first (mkDom {["show"]} ∅ ∅ ∅) [] [] []
           [AddOp "open"] false false).
  reflexivity.
Defined.

(** With a remove-class queued first, ["show"] added and removed is on the
    node after the flush. *)
Lemma show_survives_an_earlier_removeClass :
  exists d',
    (removeClass "busy" ;; addClass "show" ;; removeClass "show" ;; processQueue)
      (new_Element (Some blank))
    = Outcome (mkElement (Some d') (layout [] [] [] []) false false) [] (Normal This)
    /\ classList_contains "show" d' = true
    /\ "show" ∈ dom_classList d'.
Proof.
  eexists. split; [reflexivity |]. split.
  - vm_compute. reflexivity.
  - refine (bool_decide_unpack _ _). vm_compute. exact I.
Defined.

Lemma last_write_wins_except_proto_witness :
  exists a' p' s',
    (perform_all aria_on
       [CallSetAttribute "title" (VStr "a"); CallSetStyle "color" (VStr "red");
        CallSetProperty "value" (VNum 1); CallSetAttribute "title" (VNum 2);
        CallSetStyle "color" (VStr "blue"); CallSetProperty "value" (VNum 3)] ;;
     processQueue) (new_Element (Some (mkRecorder [])))
    = Outcome (mkElement
                 (Some (apply_entries style_set s'
                          (apply_entries dom_setProperty p'
                             (apply_entries dom_setAttribute a' (mkRecorder [])))))
                 (layout [] [] [] []) false false) [] (Normal This)
    /\ obj_get "title" a' = Some (VStr "2")
    /\ obj_get "value" p' = Some (VNum 3)
    /\ obj_get "color" s' = Some (VStr "blue").
Proof.
  destruct (last_write_wins_except_proto aria_on (mkRecorder []) [] [] [] [] false false
              [CallSetAttribute "title" (VStr "a"); CallSetStyle "color" (VStr "red");
               CallSetProperty "value" (VNum 1); CallSetAttribute "title" (VNum 2);
               CallSetStyle "color" (VStr "blue"); CallSetProperty "value" (VNum 3)])
    as (a' & p' & s' & Hrun & _ & _ & _ & Hget); try apply NoDup_nil_2; [reflexivity |].
  exists a', p', s'. split; [exact Hrun |].
  destruct (Hget "title") as (Ht & _ & _); [done |].
  destruct (Hget "value") as (_ & Hv & _); [done |].
  destruct (Hget "color") as (_ & _ & Hc); [done |].
  split_and!; [rewrite Ht | rewrite Hv | rewrite Hc]; reflexivity.
Defined.

(** The calls that reach the node in that run: one for each key, carrying
    the last value. *)
Example last_write_is_the_only_write :
  element (st ((perform_all aria_on
                  [CallSetAttribute "title" (VStr "a"); CallSetStyle "color" (VStr "red");
                   CallSetProperty "value" (VNum 1); CallSetAttribute "title" (VNum 2);
                   CallSetStyle "color" (VStr "blue"); CallSetProperty "value" (VNum 3)] ;;
                processQueue) (new_Element (Some (mkRecorder [])))))
  = Some (mkRecorder [DomSetAttribute "title" (VStr "2");
                      DomSetProperty "value" (VNum 3);
                      DomSetStyle "color" (VStr "blue")]).
Proof. reflexivity. Qed.

(** A call with the key [__proto__] reaches the prototype setter of the
    pending map, which ignores a string: nothing is pending afterwards and
    the flush makes no DOM call for it. *)
Lemma proto_key_is_dropped :
  last_attribute "__proto__" [CallSetAttribute "__proto__" (VStr "x")] = Some (VStr "x")
  /\ last_property "__proto__" [CallSetProperty "__proto__" (VStr "x")] = Some (VStr "x")
  /\ last_style "__proto__" [CallSetStyle "__proto__" (VStr "x")] = Some (VStr "x")
  /\ (perform_all aria_on
        [CallSetAttribute "__proto__" (VStr "x"); CallSetProperty "__proto__" (VStr "x");
         CallSetStyle "__proto__" (VStr "x")] ;;
      processQueue) (new_Element (Some blank))
     = Outcome (new_Element (Some blank)) [] (Normal This)
  /\ dom_attributes blank !! "__proto__" = None
  /\ dom_properties blank !! "__proto__" = None
  /\ dom_style blank !! "__proto__" = None
  /\ (perform_all aria_on
        [CallSetAttribute "__proto__" (VStr "x"); CallSetProperty "__proto__" (VStr "x");
         CallSetStyle "__proto__" (VStr "x")] ;;
      processQueue) (new_Element (Some (mkRecorder [])))
     = Outcome (new_Element (Some (mkRecorder []))) [] (Normal This).
Proof. split_and!; reflexivity. Defined.

(** ** Frames, flags and promises *)

Section Frames.
Context {T : Type} `{Host T}.

Lemma read_while_reading (func : callback T) (e : Element T) :
  reading e = true -> read func e = Outcome e [] (Normal None).
Proof. intros Hbusy. unfold read, bind, gets. cbn. by rewrite Hbusy. Qed.

Lemma write_while_writing (func : option (callback T)) (e : Element T) :
  writing e = true -> write func e = Outcome e [] (Normal None).
Proof. intros Hbusy. unfold write, bind, gets. cbn. by rewrite Hbusy. Qed.

Lemma call_unchanged {A : Type} (m : M T A) (w : World T) (a : A) :
  m (self w) = Outcome (self w) [] (Normal a) -> call m w = (w, Normal a).
Proof.
  intros Hm. unfold call. rewrite Hm. cbn. rewrite app_nil_r. by destruct w.
Qed.

(** A read callback that throws: the frame rejects with [this], and the
    instance stays as the callback left it, nothing after the call having
    run. *)
Lemma read_frame_of_throwing (func : callback T) (e : Element T) (err : jserror) :
  res (func (set_reading true e)) = Throw err ->
  frame_body (read_frame func) e
  = Outcome (st (func (set_reading true e))) (registered (func (set_reading true e)))
            (Normal (Rejected This)).
Proof.
  intros Hthrow. cbn [frame_body read_frame]. unfold try_catch.
  assert (Hbody : (modify (set_reading true) ;; func ;; modify (set_reading false) ;;
                   ret (Resolved This)) e
                  = Outcome (st (func (set_reading true e)))
                            (registered (func (set_reading true e))) (Throw err)).
  { erewrite bind_normal; [| reflexivity].
    apply bind_throw. destruct (func (set_reading true e)) as [e' fs r'].
    cbn in *. by subst. }
  rewrite Hbody. cbn. by rewrite app_nil_r.
Qed.

(** A read callback that returns: the flag is cleared and the frame
    resolves with [this]. *)
Lemma read_frame_of_returning (func : callback T) (e : Element T) :
  res (func (set_reading true e)) = Normal tt ->
  frame_body (read_frame func) e
  = Outcome (set_reading false (st (func (set_reading true e))))
            (registered (func (set_reading true e)))
            (Normal (Resolved This)).
Proof.
  intros Hret. cbn [frame_body read_frame]. unfold try_catch, bind, modify, ret.
  cbn. rewrite Hret. cbn. by rewrite !app_nil_r.
Qed.

(** A write callback that throws: [write] itself throws, with the flag
    still set and no frame of its own booked. *)
Lemma write_of_throwing (func : callback T) (e : Element T) (err : jserror) :
  writing e = false ->
  res (func (set_writing true e)) = Throw err ->
  write (Some func) e
  = Outcome (st (func (set_writing true e))) (registered (func (set_writing true e)))
            (Throw err).
Proof.
  intros Hidle Hthrow. unfold write.
  erewrite bind_normal; [| reflexivity]. rewrite Hidle.
  apply bind_throw.
  erewrite bind_normal; [| reflexivity].
  apply bind_throw. destruct (func (set_writing true e)) as [e' fs r'].
  cbn in *. by subst.
Qed.

(** [write()] on an idle instance books the flushing frame and returns its
    promise. *)
Lemma write_without_callback (el : option T) (q : jsobj qentry) (r : bool) :
  write None (mkElement el q r false)
  = Outcome (mkElement el q r false) [write_frame] (Normal (Some (mkPromise write_frame))).
Proof. reflexivity. Qed.

(** The flushing frame on a node resolves with [this] ... *)
Lemma write_frame_flushes (t : T) a p s ops (r w : bool) :
  frame_body write_frame (mkElement (Some t) (layout a p s ops) r w)
  = Outcome
      (mkElement
         (Some (fold_left apply_classop ops
                  (apply_entries style_set s
                     (apply_entries dom_setProperty p
                        (apply_entries dom_setAttribute a t)))))
         (layout [] [] [] []) r w)
      [] (Normal (Resolved This)).
Proof.
  cbn [frame_body write_frame]. unfold try_catch.
  erewrite bind_normal; [| apply processQueue_layout]. reflexivity.
Qed.

(** ... and without a node it rejects with [this], the queue kept. *)
Lemma write_frame_without_element (q : jsobj qentry) (r w : bool) :
  frame_body write_frame (mkElement (T:=T) None q r w)
  = Outcome (mkElement None q r w) [] (Normal (Rejected This)).
Proof. reflexivity. Qed.

(** C3.  A [read] made while [reading] is set, and a [write] made while
    [writing] is set, return [null]; the instance and the booked frames are
    what they were, so the callback is not run then and no later frame can
    run it. *)
Theorem nested_calls_are_refused (func : callback T) (wfunc : option (callback T))
        (w : World T) :
  (reading (self w) = true ->
   call (read func) w = (w, Normal None)
   /\ forall n, ticks n (call (read func) w).1 = ticks n w)
  /\ (writing (self w) = true ->
      call (write wfunc) w = (w, Normal None)
      /\ forall n, ticks n (call (write wfunc) w).1 = ticks n w).
Proof.
  split; intros Hbusy.
  - assert (Hcall : call (read func) w = (w, Normal None))
      by (apply call_unchanged; by apply read_while_reading).
    split; [exact Hcall |]. intros n. by rewrite Hcall.
  - assert (Hcall : call (write wfunc) w = (w, Normal None))
      by (apply call_unchanged; by apply write_while_writing).
    split; [exact Hcall |]. intros n. by rewrite Hcall.
Qed.
End Frames.

Lemma nested_calls_are_refused_witness :
  call (read idle) (mkWorld (mkElement (Some blank) (layout [] [] [] []) true true) [])
  = (mkWorld (mkElement (Some blank) (layout [] [] [] []) true true) [], Normal None)
  /\ call (write (Some idle)) (mkWorld (mkElement (Some blank) (layout [] [] [] []) true true) [])
     = (mkWorld (mkElement (Some blank) (layout [] [] [] []) true true) [], Normal None).
Proof.
  destruct (nested_calls_are_refused idle (Some idle)
              (mkWorld (mkElement (Some blank) (layout [] [] [] []) true true) []))
    as [Hread Hwrite].
  split.
  - apply (proj1 (Hread eq_refl)).
  - apply (proj1 (Hwrite eq_refl)).
Defined.

(** The scenario of C3 from inside a callback: the first [read]'s callback
    calls [read] again; the inner call books nothing, and its callback, which
    would queue a class, never runs. *)
Example nested_read_is_dropped :
  let inner : callback Dom := addClass "second" ;; ret tt in
  let outer : callback Dom := read inner ;; ret tt in
  let w1 := (call (read outer) fresh_world).1 in
  (tick w1).2 = [Normal (Resolved This)]
  /\ pending (tick w1).1 = []
  /\ self (ticks 3 w1) = new_Element (Some blank).
Proof. cbv zeta. split_and!; vm_compute; reflexivity. Qed.

(** C2, at the failing inputs.  After a read callback has thrown, [reading]
    is still set and the next [read] returns [null]; after a write callback
    has thrown, [writing] is still set and the next [write] returns [null]. *)
Theorem flags_stay_set_after_a_throw :
  let w1 := (call (read thrower) fresh_world).1 in
  let w2 := (call (write (Some thrower)) fresh_world).1 in
  reading (self (tick w1).1) = true
  /\ (call (read idle) (tick w1).1).2 = Normal None
  /\ writing (self w2) = true
  /\ (call (write None) w2).2 = Normal None.
Proof.
  cbv zeta.
  assert (Htick : self (tick (call (read thrower) fresh_world).1).1
                  = set_reading true (new_Element (Some blank))).
  { unfold tick, call. cbn [fst snd self pending run_frames read]. cbn -[read_frame].
    by rewrite (read_frame_of_throwing thrower _ (JsError "boom")). }
  assert (Hwrite : self (call (write (Some thrower)) fresh_world).1
                   = set_writing true (new_Element (Some blank))).
  { unfold call. by rewrite (write_of_throwing thrower _ (JsError "boom")). }
  split_and!.
  - by rewrite Htick.
  - unfold call at 1. cbn [snd]. rewrite Htick. by rewrite read_while_reading.
  - by rewrite Hwrite.
  - unfold call at 1. cbn [snd]. rewrite Hwrite. by rewrite write_while_writing.
Qed.

(** C6, at the failing input.  The error of a write callback is not caught:
    [write] throws it on, returns no promise and books no frame, so no
    promise is there to be rejected. *)
Theorem write_callback_error_escapes :
  write (Some thrower) (new_Element (Some blank))
  = Outcome (set_writing true (new_Element (Some blank))) [] (Throw (JsError "boom")).
Proof. by rewrite (write_of_throwing thrower _ (JsError "boom")). Qed.

(** The read half of C6 holds: the promise of a [read] whose callback
    throws is rejected with [this]. *)
Example read_callback_error_rejects :
  let w1 := (call (read thrower) fresh_world).1 in
  (tick w1).2 = [Normal (Rejected This)].
Proof. cbv zeta. vm_compute. reflexivity. Qed.

(** ** The queue invariant *)

Section Invariant.
Context {T : Type} `{Host T}.
Implicit Types (tk : Toolkit) (el : option T) (a p s : jsobj jsval) (ops : list classop).

Lemma single_slots_put_add c ops :
  single_slots ops = true -> single_slots (put_add c ops) = true.
Proof.
  destruct ops as [|[?|?] [|[?|?] [|? ?]]]; cbn; congruence.
Qed.

Lemma single_slots_put_remove c ops :
  single_slots ops = true -> single_slots (put_remove c ops) = true.
Proof.
  destruct ops as [|[?|?] [|[?|?] [|? ?]]]; cbn; congruence.
Qed.

Lemma single_slots_class_step ops (c : setter_call) :
  single_slots ops = true -> single_slots (class_step ops c) = true.
Proof.
  destruct c; cbn [class_step]; auto using single_slots_put_add, single_slots_put_remove.
Qed.

Lemma reveal_layout tk (dontShow : bool) el a p s ops r w :
  exists a' s',
    reveal tk dontShow (mkElement el (layout a p s ops) r w)
    = Outcome (mkElement (T:=T) el (layout a' p s' (put_add "show" (put_remove "hide" ops))) r w)
              [] (Normal This).
Proof.
  set (s1 := if dontShow then s else obj_set "display" (VStr "") s).
  destruct (setAria_at_layout tk 1 el a p s1
              (put_add "show" (put_remove "hide" ops)) r w "hidden" (VBool false))
    as (a' & Haria); [done |].
  exists a', s1. unfold reveal.
  assert (Hstyle : (if negb dontShow then setStyle "display" (VStr "") else ret This)
                     (mkElement el (layout a p s ops) r w)
                   = Outcome (mkElement el (layout a p s1 ops) r w) [] (Normal This)).
  { subst s1. destruct dontShow; [reflexivity | apply setStyle_layout]. }
  erewrite bind_normal; [| exact Hstyle].
  erewrite bind_normal; [| apply removeClass_layout].
  erewrite bind_normal; [| apply addClass_layout].
  exact Haria.
Qed.

Lemma conceal_layout te tk (dontHide : bool) (t : T) a p s ops r w :
  exists a',
    conceal te tk dontHide (mkElement (Some t) (layout a p s ops) r w)
    = Outcome
        (mkElement
           (Some (if classList_contains "show" t && negb dontHide
                  then te (style_set "display" (VStr "none")) t
                  else t))
           (layout a' p s (put_add "hide" (put_remove "show" ops))) r w)
        [] (Normal This).
Proof.
  set (t' := if classList_contains "show" t && negb dontHide
             then te (style_set "display" (VStr "none")) t else t).
  destruct (setAria_at_layout tk 1 (Some t') a p s
              (put_add "hide" (put_remove "show" ops)) r w "hidden" (VBool true))
    as (a' & Haria); [done |].
  exists a'. unfold conceal.
  erewrite bind_normal; [| reflexivity].
  assert (Hhook : (if classList_contains "show" t && negb dontHide
                   then on_element (te (style_set "display" (VStr "none")))
                   else ret tt) (mkElement (Some t) (layout a p s ops) r w)
                  = Outcome (mkElement (Some t') (layout a p s ops) r w) [] (Normal tt)).
  { subst t'. by destruct (classList_contains "show" t && negb dontHide). }
  erewrite bind_normal; [| exact Hhook].
  erewrite bind_normal; [| apply removeClass_layout].
  erewrite bind_normal; [| apply addClass_layout].
  exact Haria.
Qed.

Lemma conceal_without_node te tk (dontHide : bool) (q : jsobj qentry) (r w : bool) :
  conceal te tk dontHide (mkElement (T:=T) None q r w)
  = Outcome (mkElement None q r w) []
            (Throw (JsTypeError "Cannot read properties of null")).
Proof. reflexivity. Qed.

Lemma invoke_settled te tk (c : method_call) (e : Element T) :
  settled e -> settled (st (invoke te tk c e)).
Proof.
  intros ((a & p & s & ops & Hq & Hslots) & Hr & Hw).
  destruct e as [el q r w]. cbn in Hq, Hr, Hw. subst q r w.
  destruct c as [c|b|b| |]; cbn [invoke].
  - destruct (perform_layout tk c el a p s ops false false) as (a' & p' & s' & Hc).
    rewrite Hc. split; [| done].
    exists a', p', s', (class_step ops c). split; [done |].
    by apply single_slots_class_step.
  - destruct (reveal_layout tk b el a p s ops false false) as (a' & s' & Hc).
    rewrite Hc. split; [| done].
    exists a', p, s', (put_add "show" (put_remove "hide" ops)). split; [done |].
    by apply single_slots_put_add, single_slots_put_remove.
  - destruct el as [t|].
    + destruct (conceal_layout te tk b t a p s ops false false) as (a' & Hc).
      rewrite Hc. split; [| done].
      exists a', p, s, (put_add "hide" (put_remove "show" ops)). split; [done |].
      by apply single_slots_put_add, single_slots_put_remove.
    + rewrite conceal_without_node. split; [| done]. by exists a, p, s, ops.
  - destruct el as [t|].
    + rewrite processQueue_layout. split; [| done]. by exists [], [], [], [].
    + split; [| done]. by exists a, p, s, ops.
  - split; [| done]. by exists [], [], [], [].
Qed.

Lemma after_calls_settled te tk (cs : list method_call) (e : Element T) :
  settled e -> settled (after_calls te tk cs e).
Proof.
  revert e. induction cs as [|c cs IH]; intros e He; [done |].
  cbn [after_calls]. by apply IH, invoke_settled.
Qed.

(** X1.  Whatever setters, [reveal], [conceal], [processQueue] and
    [resetQueue] calls were made on an instance since its construction,
    by a caller that carries on after an exception, the queue object
    still has its three maps followed by at most one add-class and one
    remove-class key, both flags are clear, and so no setter call throws. *)
Theorem queue_stays_laid_out te tk (cs : list method_call) (el : option T)
        (c : setter_call) :
  let e := after_calls te tk cs (new_Element el) in
  (exists a p s ops, queue e = layout a p s ops /\ single_slots ops = true)
  /\ reading e = false
  /\ writing e = false
  /\ res (perform tk c e) = Normal This.
Proof.
  intros e.
  assert (He : settled e).
  { apply after_calls_settled. split; [| done]. by exists [], [], [], []. }
  destruct He as ((a & p & s & ops & Hq & Hslots) & Hr & Hw).
  split_and!; try done.
  - by exists a, p, s, ops.
  - destruct e as [el' q r w]. cbn in Hq. subst q.
    destruct (perform_layout tk c el' a p s ops r w) as (a' & p' & s' & Hc).
    by rewrite Hc.
Qed.
End Invariant.

(** ** Flushing, in general *)

Section Flush.
Context {T : Type} `{Host T}.

Lemma node_only_ret {A : Type} (a : A) : node_only (ret (T:=T) a).
Proof. intros e. by split_and!. Qed.

Lemma node_only_throw {A : Type} (err : jserror) : node_only (throw (T:=T) (A:=A) err).
Proof. intros e. by split_and!. Qed.

Lemma node_only_on_element (op : T -> T) : node_only (on_element op).
Proof.
  intros e. split_and!; try done.
  intros [t Ht]. cbn. rewrite Ht. by eexists.
Qed.

Lemma node_only_bind {A B : Type} (m : M T A) (k : A -> M T B) :
  node_only m -> (forall a, node_only (k a)) -> node_only (bind m k).
Proof.
  intros Hm Hk e. destruct (Hm e) as (Hreg & Hq & Hr & Hw & Hel).
  unfold bind. destruct (res (m e)) as [a|err].
  - destruct (Hk a (st (m e))) as (Hreg2 & Hq2 & Hr2 & Hw2 & Hel2).
    cbn. rewrite Hreg, Hreg2. split_and!; [done | congruence | congruence | congruence |].
    intros Hnode. by apply Hel2, Hel.
  - cbn. by split_and!.
Qed.

Lemma node_only_forOwn {V : Type} (o : jsobj V) (f : string -> V -> M T unit) :
  (forall k v, node_only (f k v)) -> node_only (forOwn o f).
Proof.
  intros Hf. induction o as [|[k v] o IH]; cbn [forOwn].
  - apply node_only_ret.
  - apply node_only_bind; [apply Hf | intros _; apply IH].
Qed.

Lemma node_only_process_entry (key : string) (value : qentry) :
  node_only (process_entry (T:=T) key value).
Proof.
  unfold process_entry.
  repeat case_decide; destruct value;
    try apply node_only_throw; try apply node_only_on_element;
    try apply node_only_ret;
    apply node_only_forOwn; intros; apply node_only_on_element.
Qed.

(** [processQueue] by cases: without a node it throws at once; with one
    it runs the entries and, when none of them throws, resets the queue. *)
Lemma processQueue_cases (e : Element T) :
  processQueue e
  = match element e with
    | None => Outcome e [] (Throw (JsError "No element in container. Cannot process queue."))
    | Some _ =>
        let o := forOwn (queue e) process_entry e in
        match res o with
        | Normal _ => Outcome (set_queue (layout [] [] [] []) (st o)) [] (Normal This)
        | Throw err => Outcome (st o) [] (Throw err)
        end
    end.
Proof.
  unfold processQueue, bind, gets. cbn [st res registered].
  destruct (element e) as [t|]; [| reflexivity].
  destruct (node_only_forOwn (queue e) process_entry node_only_process_entry e)
    as (Hreg & _).
  rewrite Hreg. by destruct (res (forOwn (queue e) process_entry e)).
Qed.

Lemma processQueue_books_nothing (e : Element T) : registered (processQueue e) = [].
Proof.
  rewrite processQueue_cases. destruct (element e); [| done].
  cbv zeta. by destruct (res (forOwn (queue e) process_entry e)).
Qed.

(** After a flush that returned, the node is still there and the queue is
    new. *)
Lemma processQueue_returned (e : Element T) (x : ref) :
  res (processQueue e) = Normal x ->
  exists t, st (processQueue e)
            = mkElement (Some t) (layout [] [] [] []) (reading e) (writing e).
Proof.
  rewrite processQueue_cases. destruct (element e) as [t|] eqn:Hel; [| done].
  cbv zeta.
  destruct (node_only_forOwn (queue e) process_entry node_only_process_entry e)
    as (_ & _ & Hr & Hw & Hnode).
  destruct (res (forOwn (queue e) process_entry e)); [| done]. intros _.
  destruct Hnode as [t' Ht']; [by rewrite Hel |].
  exists t'. cbn [st]. unfold set_queue. by rewrite Ht', Hr, Hw.
Qed.

(** The frame [write] books: it flushes, and settles by how the flush
    completed. *)
Lemma write_frame_settles (e : Element T) :
  frame_body write_frame e
  = Outcome (st (processQueue e)) [] (Normal (settle_of (res (processQueue e)))).
Proof.
  cbn [frame_body write_frame]. unfold try_catch, bind, ret.
  pose proof (processQueue_books_nothing e) as Hreg.
  destruct (processQueue e) as [e' fs [x|err]]; cbn in *; by subst.
Qed.

(** X2.  A second flush right after a flush changes nothing: whatever the
    instance, [processQueue] twice completes as [processQueue] once and
    leaves the same node and queue. *)
Theorem processQueue_twice (e : Element T) :
  (processQueue ;; processQueue) e = processQueue e.
Proof.
  destruct (res (processQueue e)) as [x|err] eqn:Hres.
  - destruct (processQueue_returned e x Hres) as (t & Hst).
    pose proof (processQueue_books_nothing e) as Hreg.
    destruct (processQueue e) as [e' fs r'] eqn:Hfirst. cbn in Hres, Hst, Hreg. subst.
    erewrite bind_normal; [| exact Hfirst].
    rewrite processQueue_layout. destruct x. reflexivity.
  - pose proof (processQueue_books_nothing e) as Hreg.
    destruct (processQueue e) as [e' fs r'] eqn:Hfirst. cbn in Hres, Hreg. subst.
    by erewrite bind_throw.
Qed.

(** X3.  [write()] with no callback and then one frame is a flush: the
    instance ends as [processQueue] leaves it, the promise resolves with
    [this] when [processQueue] returned and rejects with [this] when it
    threw, and nothing is booked for a later frame. *)
Theorem write_then_frame_is_flush (el : option T) (q : jsobj qentry) (r : bool) :
  tick (call (write None) (mkWorld (mkElement el q r false) [])).1
  = (mkWorld (st (processQueue (mkElement el q r false))) [],
     [Normal (settle_of (res (processQueue (mkElement el q r false))))]).
Proof.
  unfold call, tick. cbn [fst self pending].
  rewrite write_without_callback. cbn [st registered app run_frames].
  by rewrite write_frame_settles.
Qed.

(** X4.  Without a node [processQueue] throws its error before touching
    anything, so the pending queue is kept; through [write()] the promise is
    rejected with [this], the instance is unchanged and a later [write()] is
    accepted again. *)
Theorem flush_without_element (q : jsobj qentry) (r : bool) :
  processQueue (mkElement (T:=T) None q r false)
  = Outcome (mkElement None q r false) []
            (Throw (JsError "No element in container. Cannot process queue."))
  /\ tick (call (write None) (mkWorld (mkElement None q r false) [])).1
     = (mkWorld (mkElement None q r false) [], [Normal (Rejected This)])
  /\ write None (st (frame_body write_frame (mkElement (T:=T) None q r false)))
     = Outcome (mkElement None q r false) [write_frame]
               (Normal (Some (mkPromise write_frame))).
Proof.
  split_and!.
  - by rewrite processQueue_cases.
  - unfold call, tick. cbn [fst self pending]. rewrite write_without_callback.
    cbn [st registered app run_frames]. by rewrite write_frame_settles, processQueue_cases.
  - by rewrite write_frame_settles, processQueue_cases.
Qed.
End Flush.

(** ** Frames, one after the other *)

Section Scheduling.
Context {T : Type} `{Host T}.

Lemma tick_one (f : Frame T) (e : Element T) :
  tick (mkWorld e [f])
  = (mkWorld (st (frame_body f e)) (registered (frame_body f e)), [res (frame_body f e)]).
Proof. unfold tick. cbn. by rewrite app_nil_r. Qed.

Lemma tick_two (f1 f2 : Frame T) (e : Element T) :
  tick (mkWorld e [f1; f2])
  = (mkWorld (st (frame_body f2 (st (frame_body f1 e))))
             (registered (frame_body f1 e) ++ registered (frame_body f2 (st (frame_body f1 e)))),
     [res (frame_body f1 e); res (frame_body f2 (st (frame_body f1 e)))]).
Proof. unfold tick. cbn. by rewrite app_nil_r. Qed.

(** X5.  Calls of [write()] are not merged: two calls book two frames,
    both promises resolve, and the second frame finds the queue empty and
    leaves the node as the first flush made it. *)
Theorem every_write_books_a_frame (t : T) (a p s : jsobj jsval) (ops : list classop)
        (r : bool) :
  let w0 := mkWorld (mkElement (Some t) (layout a p s ops) r false) [] in
  let w2 := (call (write None) (call (write None) w0).1).1 in
  pending w2 = [write_frame; write_frame]
  /\ tick w2
     = (mkWorld
          (mkElement
             (Some (fold_left apply_classop ops
                      (apply_entries style_set s
                         (apply_entries dom_setProperty p
                            (apply_entries dom_setAttribute a t)))))
             (layout [] [] [] []) r false) [],
        [Normal (Resolved This); Normal (Resolved This)]).
Proof.
  cbv zeta.
  assert (Hbooked : (call (write None)
                       (call (write None)
                          (mkWorld (mkElement (Some t) (layout a p s ops) r false) [])).1).1
                    = mkWorld (mkElement (Some t) (layout a p s ops) r false)
                              [write_frame; write_frame]) by reflexivity.
  rewrite Hbooked. split; [reflexivity |].
  rewrite tick_two, write_frame_flushes. cbn [st registered res].
  rewrite write_frame_flushes. reflexivity.
Qed.

(** X6.  [read] defers its callback: the call leaves the instance as it
    is and books one frame; in that frame the callback runs with [reading]
    set, and when it returns the flag is cleared, the promise resolves with
    [this] and what the callback booked waits for the frame after. *)
Theorem read_runs_in_its_frame (func : callback T) (el : option T) (q : jsobj qentry)
        (w : bool) :
  res (func (mkElement el q true w)) = Normal tt ->
  call (read func) (mkWorld (mkElement el q false w) [])
  = (mkWorld (mkElement el q false w) [read_frame func],
     Normal (Some (mkPromise (read_frame func))))
  /\ tick (mkWorld (mkElement el q false w) [read_frame func])
     = (mkWorld (set_reading false (st (func (mkElement el q true w))))
                (registered (func (mkElement el q true w))),
        [Normal (Resolved This)]).
Proof.
  intros Hret. split; [reflexivity |].
  rewrite tick_one, read_frame_of_returning; [reflexivity | exact Hret].
Qed.

(** X7.  When the callback of a [read] throws, the promise is rejected
    with [this] (the error itself is dropped), the instance stays as the
    callback left it, and what the callback had booked still waits for the
    frame after. *)
Theorem read_rejects_when_callback_throws (func : callback T) (el : option T)
        (q : jsobj qentry) (w : bool) (err : jserror) :
  res (func (mkElement el q true w)) = Throw err ->
  tick (call (read func) (mkWorld (mkElement el q false w) [])).1
  = (mkWorld (st (func (mkElement el q true w)))
             (registered (func (mkElement el q true w))),
     [Normal (Rejected This)]).
Proof.
  intros Hthrow.
  assert (Hbooked : (call (read func) (mkWorld (mkElement el q false w) [])).1
                    = mkWorld (mkElement el q false w) [read_frame func]) by reflexivity.
  rewrite Hbooked, tick_one, (read_frame_of_throwing func _ err); [reflexivity | exact Hthrow].
Qed.

(** X8.  [write] runs its callback at once, with [writing] set, and clears
    the flag when the callback returns; the frame that flushes is booked
    after whatever the callback booked. *)
Theorem write_runs_callback_at_once (func : callback T) (el : option T)
        (q : jsobj qentry) (r : bool) :
  res (func (mkElement el q r true)) = Normal tt ->
  write (Some func) (mkElement el q r false)
  = Outcome (set_writing false (st (func (mkElement el q r true))))
            (registered (func (mkElement el q r true)) ++ [write_frame])
            (Normal (Some (mkPromise write_frame))).
Proof.
  intros Hret. unfold write.
  erewrite bind_normal; [| reflexivity]. cbn [writing].
  assert (Hcb : (modify (set_writing true) ;; func ;; modify (set_writing false))
                  (mkElement el q r false)
                = Outcome (set_writing false (st (func (mkElement el q r true))))
                          (registered (func (mkElement el q r true))) (Normal tt)).
  { erewrite bind_normal; [| reflexivity].
    change (set_writing true (mkElement el q r false)) with (mkElement el q r true).
    unfold bind, modify. rewrite Hret. cbn [st registered res]. by rewrite app_nil_r. }
  unfold bind at 1. rewrite Hcb. cbn [res st registered].
  unfold bind, requestAnimationFrame, ret. cbn [res st registered]. by rewrite app_nil_r.
Qed.

(** X9.  A [read] asked for from inside a write callback comes before
    that write's flush: in the next frame the read callback runs on the
    instance as it was, with the queue still pending, and the flush follows
    it. *)
Theorem read_inside_write_precedes_flush (g : callback T) (el : option T)
        (q : jsobj qentry) :
  res (g (mkElement el q true false)) = Normal tt ->
  let e := mkElement el q false false in
  let seen := set_reading false (st (g (mkElement el q true false))) in
  call (write (Some (read g ;; ret tt))) (mkWorld e [])
  = (mkWorld e [read_frame g; write_frame], Normal (Some (mkPromise write_frame)))
  /\ tick (mkWorld e [read_frame g; write_frame])
     = (mkWorld (st (processQueue seen)) (registered (g (mkElement el q true false))),
        [Normal (Resolved This); Normal (settle_of (res (processQueue seen)))]).
Proof.
  intros Hret. cbv zeta. split; [reflexivity |].
  rewrite tick_two, read_frame_of_returning; [| exact Hret].
  cbn [st registered res]. rewrite write_frame_settles. cbn [st registered res].
  by rewrite app_nil_r.
Qed.

(** X10.  A [write()] made from inside a read callback flushes one frame
    later: the read's frame leaves node and queue untouched and books the
    flush, and the frame after is that flush. *)
Theorem write_inside_read_flushes_next_frame (el : option T) (q : jsobj qentry) :
  let e := mkElement el q false false in
  let w1 := (call (read (write None ;; ret tt)) (mkWorld e [])).1 in
  tick w1 = (mkWorld e [write_frame], [Normal (Resolved This)])
  /\ tick (tick w1).1
     = (mkWorld (st (processQueue e)) [], [Normal (settle_of (res (processQueue e)))]).
Proof.
  cbv zeta.
  assert (Hfirst : tick (call (read (write None ;; ret tt))
                           (mkWorld (mkElement el q false false) [])).1
                   = (mkWorld (mkElement el q false false) [write_frame],
                      [Normal (Resolved This)])) by reflexivity.
  split; [exact Hfirst |]. rewrite Hfirst. cbn [fst].
  by rewrite tick_one, write_frame_settles.
Qed.
End Scheduling.

Lemma read_runs_in_its_frame_witness :
  call (read idle) fresh_world
  = (mkWorld (new_Element (Some blank)) [read_frame idle],
     Normal (Some (mkPromise (read_frame idle))))
  /\ tick (mkWorld (new_Element (Some blank)) [read_frame idle])
     = (mkWorld (new_Element (Some blank)) [], [Normal (Resolved This)]).
Proof.
  exact (read_runs_in_its_frame idle (Some blank) (layout [] [] [] []) false eq_refl).
Defined.

Lemma read_rejects_when_callback_throws_witness :
  tick (call (read thrower) fresh_world).1
  = (mkWorld (mkElement (Some blank) (layout [] [] [] []) true false) [],
     [Normal (Rejected This)]).
Proof.
  exact (read_rejects_when_callback_throws thrower (Some blank) (layout [] [] [] []) false
           (JsError "boom") eq_refl).
Defined.

Lemma write_runs_callback_at_once_witness :
  write (Some (addClass "busy" ;; ret tt)) (new_Element (Some blank))
  = Outcome (mkElement (Some blank) (layout [] [] [] [AddOp "busy"]) false false)
            [write_frame] (Normal (Some (mkPromise write_frame))).
Proof.
  exact (write_runs_callback_at_once (addClass "busy" ;; ret tt) (Some blank)
           (layout [] [] [] []) false eq_refl).
Defined.

Lemma read_inside_write_precedes_flush_witness :
  call (write (Some (read (addClass "late" ;; ret tt) ;; ret tt))) fresh_world
  = (mkWorld (new_Element (Some blank))
             [read_frame (addClass "late" ;; ret tt); write_frame],
     Normal (Some (mkPromise write_frame)))
  /\ tick (mkWorld (new_Element (Some blank))
                   [read_frame (addClass "late" ;; ret tt); write_frame])
     = (mkWorld (mkElement (Some (classList_add "late" blank)) (layout [] [] [] [])
                           false false) [],
        [Normal (Resolved This); Normal (Resolved This)]).
Proof.
  exact (read_inside_write_precedes_flush (addClass "late" ;; ret tt) (Some blank)
           (layout [] [] [] []) eq_refl).
Defined.

(** ** [reveal] and [conceal] *)

Section ShowHide.
#[local] Set Warnings "-clear-no-such-hyp".
Implicit Types (tk : Toolkit) (d : Dom) (a p s : jsobj jsval) (ops : list classop).

(** X11.  [reveal] takes over both class slots: whatever add-class or
    remove-class was pending is replaced, and after the flush the node's
    classes are the ones it had, without ["hide"] and with ["show"]. *)
Theorem reveal_takes_over_class_slots tk (dontShow : bool) d a p s ops (r w : bool) :
  single_slots ops = true ->
  exists d',
    (reveal tk dontShow ;; processQueue) (mkElement (Some d) (layout a p s ops) r w)
    = Outcome (mkElement (Some d') (layout [] [] [] []) r w) [] (Normal This)
    /\ dom_classList d' = {["show"]} ∪ (dom_classList d ∖ {["hide"]}).
Proof.
  intros Hslots.
  destruct (reveal_layout tk dontShow (Some d) a p s ops r w) as (a' & s' & Hreveal).
  eexists. split.
  - erewrite bind_normal; [| exact Hreveal]. apply processQueue_layout.
  - rewrite flushed_classList. assert (Hne : "show" ≠ "hide") by done.
    destruct ops as [|[?|?] [|[?|?] [|? ?]]]; try discriminate Hslots; cbn; set_solver.
Qed.

(** X12.  [conceal(true)], and [conceal] on a node that does not carry
    ["show"], never call [transitionEnd]: the node is left exactly as it
    is, whatever the queue holds. *)
Theorem conceal_without_hook {T : Type} `{Host T} (te : (T -> T) -> T -> T) tk
        (dontHide : bool) (t : T) (q : jsobj qentry) (r w : bool) :
  dontHide = true \/ classList_contains "show" t = false ->
  element (st (conceal te tk dontHide (mkElement (Some t) q r w))) = Some t.
Proof.
  intros Hquiet. unfold conceal.
  erewrite bind_normal; [| reflexivity].
  assert (Hskip : classList_contains "show" t && negb dontHide = false).
  { destruct Hquiet as [-> | ->]; [apply andb_false_r | done]. }
  rewrite Hskip. erewrite bind_normal; [| reflexivity].
  assert (Hrest : queue_only T (removeClass "show" ;; addClass "hide" ;;
                                setAria tk "hidden" (VBool true))).
  { apply queue_only_bind; [apply queue_only_removeClass | intros _].
    apply queue_only_bind; [apply queue_only_addClass | intros _].
    apply queue_only_setAria_at. }
  by destruct (Hrest (mkElement (Some t) q r w)) as (Hel & _).
Qed.

(** X13.  [conceal] needs the node and [reveal] does not: on an instance
    with no element [conceal] throws before it queues anything, while
    [reveal] queues as usual. *)
Theorem conceal_needs_the_element {T : Type} `{Host T} (te : (T -> T) -> T -> T) tk
        (flag : bool) a p s ops (r w : bool) :
  conceal te tk flag (mkElement None (layout a p s ops) r w)
  = Outcome (mkElement None (layout a p s ops) r w) []
            (Throw (JsTypeError "Cannot read properties of null"))
  /\ exists a' s',
      reveal tk flag (mkElement None (layout a p s ops) r w)
      = Outcome (mkElement (T:=T) None
                   (layout a' p s' (put_add "show" (put_remove "hide" ops))) r w)
                [] (Normal This).
Proof. split; [reflexivity | apply reveal_layout]. Qed.

(** X14.  Of [conceal] and [reveal] called one after the other before a
    flush, the later one decides: [conceal] then [reveal] ends with
    ["show"] and without ["hide"], [reveal] then [conceal] with ["hide"]
    and without ["show"]. *)
Theorem later_of_conceal_and_reveal_wins (te : (Dom -> Dom) -> Dom -> Dom) tk
        (dontHide dontShow : bool) d a p s ops (r w : bool) :
  (forall d0, dom_classList (te (style_set "display" (VStr "none")) d0) = dom_classList d0) ->
  single_slots ops = true ->
  exists d1 d2,
    (conceal te tk dontHide ;; reveal tk dontShow ;; processQueue)
      (mkElement (Some d) (layout a p s ops) r w)
    = Outcome (mkElement (Some d1) (layout [] [] [] []) r w) [] (Normal This)
    /\ dom_classList d1 = {["show"]} ∪ (dom_classList d ∖ {["hide"]})
    /\ (reveal tk dontShow ;; conceal te tk dontHide ;; processQueue)
         (mkElement (Some d) (layout a p s ops) r w)
       = Outcome (mkElement (Some d2) (layout [] [] [] []) r w) [] (Normal This)
    /\ dom_classList d2 = {["hide"]} ∪ (dom_classList d ∖ {["show"]}).
Proof.
  intros Hte Hslots.
  set (d0 := if classList_contains "show" d && negb dontHide
             then te (style_set "display" (VStr "none")) d else d).
  assert (Hd0 : dom_classList d0 = dom_classList d).
  { subst d0. destruct (classList_contains "show" d && negb dontHide); [apply Hte | done]. }
  destruct (conceal_layout te tk dontHide d a p s ops r w) as (a1 & Hc1).
  destruct (reveal_layout tk dontShow (Some d0) a1 p s
              (put_add "hide" (put_remove "show" ops)) r w) as (a2 & s2 & Hr1).
  destruct (reveal_layout tk dontShow (Some d) a p s ops r w) as (a3 & s3 & Hr2).
  destruct (conceal_layout te tk dontHide d a3 p s3
              (put_add "show" (put_remove "hide" ops)) r w) as (a4 & Hc2).
  assert (Hne : "show" ≠ "hide") by done.
  eexists _, _. split_and!.
  - erewrite bind_normal; [| exact Hc1].
    erewrite bind_normal; [| exact Hr1]. apply processQueue_layout.
  - rewrite flushed_classList. fold d0.
    destruct ops as [|[?|?] [|[?|?] [|? ?]]]; try discriminate Hslots;
      cbn; rewrite Hd0; set_solver.
  - erewrite bind_normal; [| exact Hr2].
    erewrite bind_normal; [| exact Hc2]. apply processQueue_layout.
  - rewrite flushed_classList. fold d0.
    destruct ops as [|[?|?] [|[?|?] [|? ?]]]; try discriminate Hslots;
      cbn; rewrite Hd0; set_solver.
Qed.
End ShowHide.

Lemma reveal_takes_over_class_slots_witness :
  exists d',
    (reveal aria_on false ;; processQueue)
      (mkElement (Some (mkDom {["hide"; "big"]} ∅ ∅ ∅))
                 (layout [] [] [] [AddOp "odd"; RemoveOp "big"]) false false)
    = Outcome (mkElement (Some d') (layout [] [] [] []) false false) [] (Normal This)
    /\ dom_classList d' = {["show"]} ∪ (({["hide"; "big"]} : gset string) ∖ {["hide"]}).
Proof.
  exact (reveal_takes_over_class_slots aria_on false (mkDom {["hide"; "big"]} ∅ ∅ ∅)
           [] [] [] [AddOp "odd"; RemoveOp "big"] false false eq_refl).
Defined.

Lemma conceal_without_hook_witness :
  element (st (conceal (fun hook node => hook node) aria_on true
                 (mkElement (Some (mkDom {["show"]} ∅ ∅ ∅)) (layout [] [] [] []) false false)))
  = Some (mkDom {["show"]} ∅ ∅ ∅).
Proof.
  exact (conceal_without_hook (fun hook node => hook node) aria_on true
           (mkDom {["show"]} ∅ ∅ ∅) (layout [] [] [] []) false false (or_introl eq_refl)).
Defined.

Lemma later_of_conceal_and_reveal_wins_witness :
  exists d1 d2,
    (conceal (fun hook node => hook node) aria_on false ;; reveal aria_on false ;; processQueue)
      (mkElement (Some (mkDom {["show"]} ∅ ∅ ∅)) (layout [] [] [] []) false false)
    = Outcome (mkElement (Some d1) (layout [] [] [] []) false false) [] (Normal This)
    /\ dom_classList d1 = {["show"]} ∪ (({["show"]} : gset string) ∖ {["hide"]})
    /\ (reveal aria_on false ;; conceal (fun hook node => hook node) aria_on false ;;
        processQueue)
         (mkElement (Some (mkDom {["show"]} ∅ ∅ ∅)) (layout [] [] [] []) false false)
       = Outcome (mkElement (Some d2) (layout [] [] [] []) false false) [] (Normal This)
    /\ dom_classList d2 = {["hide"]} ∪ (({["show"]} : gset string) ∖ {["show"]}).
Proof.
  exact (later_of_conceal_and_reveal_wins (fun hook node => hook node) aria_on false false
           (mkDom {["show"]} ∅ ∅ ∅) [] [] [] [] false false (fun _ => eq_refl) eq_refl).
Defined.

(** ** The ARIA and the plural setters *)

Section Plural.
Context {T : Type} `{Host T}.
Implicit Types (tk : Toolkit) (el : option T) (a p s m : jsobj jsval) (ops : list classop).

Lemma fan_out_chain (A B : M T ref) (e : Element T) :
  (((A ;; ret tt) ;; (B ;; ret tt) ;; ret tt) ;; ret This) e = (A ;; B) e.
Proof.
  unfold bind, ret. destruct (A e) as [e1 f1 [x|err]]; cbn [st registered res]; [| done].
  destruct (B e1) as [e2 f2 [[]|err]]; cbn [st registered res]; by rewrite ?app_nil_r.
Qed.

(** The fan-out of ["toggled"], with ARIA on. *)
Lemma setAria_toggled_chain (value : jsval) (e : Element T) :
  setAria (mkToolkit true) "toggled" value e
  = (setAttribute ("aria-" +:+ "expanded") value ;;
     setAttribute ("aria-" +:+ "selected") value) e.
Proof.
  unfold setAria. cbn [setAria_at aria negb]. rewrite decide_True by done.
  cbn [forOwn]. rewrite !decide_False by done. apply fan_out_chain.
Qed.

(** X15.  [setAria("toggled", v)] is [setAria("expanded", v)] followed by
    [setAria("selected", v)], on every instance and with ARIA on or off: the
    same queue, the same completion, and no [aria-toggled] attribute. *)
Theorem setAria_toggled_is_expanded_and_selected tk (value : jsval) (e : Element T) :
  setAria tk "toggled" value e
  = (setAria tk "expanded" value ;; setAria tk "selected" value) e.
Proof.
  destruct tk as [[|]]; [| reflexivity].
  rewrite setAria_toggled_chain. unfold setAria.
  cbn [setAria_at aria negb]. by rewrite !decide_False.
Qed.

(** X16.  With ARIA support off [setArias] does nothing, however many
    keys the map has. *)
Theorem setArias_without_aria_is_noop tk (keys : jsobj jsval) (e : Element T) :
  aria tk = false -> setArias tk keys e = Outcome e [] (Normal This).
Proof.
  intros Hoff. unfold setArias.
  assert (Hall : forOwn keys (fun k v => setAria tk k v ;; ret tt) e
                 = Outcome e [] (Normal tt)).
  { induction keys as [|[k v] keys IH]; [reflexivity |].
    cbn [forOwn]. erewrite bind_normal; [exact IH |].
    unfold setAria. cbn [setAria_at]. by rewrite Hoff. }
  by erewrite bind_normal.
Qed.

Lemma setAttributes_layout el a p s ops (r w : bool) m :
  setAttributes m (mkElement el (layout a p s ops) r w)
  = Outcome (mkElement (T:=T) el
               (layout (assign_all (fun v => VStr (String_ v)) m a) p s ops) r w)
            [] (Normal This).
Proof.
  unfold setAttributes. erewrite bind_normal; [reflexivity |].
  revert a. induction m as [|[k v] m IH]; intros a; [reflexivity |].
  cbn [forOwn]. erewrite bind_normal; [apply IH |].
  erewrite bind_normal; [reflexivity | apply setAttribute_layout].
Qed.

Lemma setProperties_layout el a p s ops (r w : bool) m :
  setProperties m (mkElement el (layout a p s ops) r w)
  = Outcome (mkElement (T:=T) el (layout a (assign_all (fun v => v) m p) s ops) r w)
            [] (Normal This).
Proof.
  unfold setProperties. erewrite bind_normal; [reflexivity |].
  revert p. induction m as [|[k v] m IH]; intros p; [reflexivity |].
  cbn [forOwn]. erewrite bind_normal; [apply IH |].
  erewrite bind_normal; [reflexivity | apply setProperty_layout].
Qed.

Lemma setStyles_layout el a p s ops (r w : bool) m :
  setStyles m (mkElement el (layout a p s ops) r w)
  = Outcome (mkElement (T:=T) el (layout a p (assign_all (fun v => v) m s) ops) r w)
            [] (Normal This).
Proof.
  unfold setStyles. erewrite bind_normal; [reflexivity |].
  revert s. induction m as [|[k v] m IH]; intros s; [reflexivity |].
  cbn [forOwn]. erewrite bind_normal; [apply IH |].
  erewrite bind_normal; [reflexivity | apply setStyle_layout].
Qed.

(** X17.  [isVisible] answers from the node's inline style alone: setter
    calls that are still unflushed, a pending [visibility] style among
    them, do not change what it returns. *)
Theorem isVisible_ignores_pending tk (t : T) (q : jsobj qentry) (r w : bool)
        (cs : list setter_call) :
  res (isVisible (st (perform_all tk cs (mkElement (Some t) q r w))))
  = Normal (negb (bool_decide (style_get "visibility" t = VStr "hidden"))).
Proof.
  destruct (queue_only_perform_all tk cs (mkElement (Some t) q r w)) as (Hel & _).
  unfold isVisible, bind, gets. cbn [res st]. rewrite Hel. reflexivity.
Qed.
End Plural.

Lemma setArias_without_aria_is_noop_witness :
  setArias aria_off [("hidden", VBool true); ("toggled", VBool false)]
           (new_Element (Some blank))
  = Outcome (new_Element (Some blank)) [] (Normal This).
Proof.
  exact (setArias_without_aria_is_noop aria_off
           [("hidden", VBool true); ("toggled", VBool false)]
           (new_Element (Some blank)) eq_refl).
Defined.

Section PluralOnDom.
Implicit Types (d : Dom) (a p s m : jsobj jsval) (ops : list classop).

Lemma assign_all_get (coerce : jsval -> jsval) m a (k : string) :
  NoDup m.*1 ->
  obj_get k (assign_all coerce m a) = pending_value k (coerce <$> obj_get k m) (obj_get k a).
Proof.
  revert a. induction m as [|[k0 v0] m IH]; intros a Hnd.
  { unfold pending_value. cbn. by case_decide. }
  cbn [fmap list_fmap fst] in Hnd. apply NoDup_cons in Hnd as [Hfresh Hnd].
  unfold assign_all in *. cbn [fold_left obj_get fst snd]. rewrite IH; [| done].
  rewrite pending_value_step. f_equal.
  destruct (decide (k = k0)) as [->|Hne]; [| by destruct (obj_get k m)].
  by rewrite obj_get_fresh.
Qed.

Lemma assign_all_NoDup (coerce : jsval -> jsval) m a :
  NoDup a.*1 -> NoDup (assign_all coerce m a).*1.
Proof.
  revert a. induction m as [|[k0 v0] m IH]; intros a Hnd; [done |].
  unfold assign_all in *. cbn [fold_left]. by apply IH, obj_assign_NoDup.
Qed.

(** The [visibility] style after the pending styles are applied depends on
    the node only through the [visibility] style it had. *)
Lemma visibility_after_styles s d1 d2 :
  style_get "visibility" d1 = style_get "visibility" d2 ->
  style_get "visibility" (apply_entries style_set s d1)
  = style_get "visibility" (apply_entries style_set s d2).
Proof.
  revert d1 d2. induction s as [|[k v] s IH]; intros d1 d2 Hsame; [done |].
  unfold apply_entries in *. cbn [fold_left fst snd]. apply IH.
  cbn [style_get style_set Dom_Host dom_style] in *.
  destruct (decide (k = "visibility")) as [->|Hne].
  - by rewrite !lookup_insert_eq.
  - by rewrite !lookup_insert_ne.
Qed.

Lemma visibility_after_flush a p s ops d :
  style_get "visibility"
    (fold_left apply_classop ops
       (apply_entries style_set s
          (apply_entries dom_setProperty p (apply_entries dom_setAttribute a d))))
  = style_get "visibility" (apply_entries style_set s d).
Proof.
  cbn [style_get Dom_Host]. rewrite flushed_style.
  change (style_get "visibility"
            (apply_entries style_set s
               (apply_entries dom_setProperty p (apply_entries dom_setAttribute a d)))
          = style_get "visibility" (apply_entries style_set s d)).
  apply visibility_after_styles. cbn [style_get Dom_Host]. by rewrite !entries_keep.
Qed.

(** X18.  The plural setters store every entry of the map they are given,
    but one whose key is [__proto__]: after [setAttributes],
    [setProperties], [setStyles] and a flush, the node has, under each other
    key of a map, that map's value (an attribute's turned into a string). *)
Theorem plural_setters_store_every_entry d ma mp ms a0 p0 s0 ops (r w : bool) :
  NoDup ma.*1 -> NoDup mp.*1 -> NoDup ms.*1 ->
  NoDup a0.*1 -> NoDup p0.*1 -> NoDup s0.*1 ->
  exists d',
    (setAttributes ma ;; setProperties mp ;; setStyles ms ;; processQueue)
      (mkElement (Some d) (layout a0 p0 s0 ops) r w)
    = Outcome (mkElement (Some d') (layout [] [] [] []) r w) [] (Normal This)
    /\ forall k v,
        k ≠ "__proto__" ->
        (obj_get k ma = Some v -> dom_attributes d' !! k = Some (String_ v))
        /\ (obj_get k mp = Some v -> dom_properties d' !! k = Some v)
        /\ (obj_get k ms = Some v -> dom_style d' !! k = Some v).
Proof.
  intros Hma Hmp Hms Ha Hp Hs. eexists. split.
  - erewrite bind_normal; [| apply setAttributes_layout].
    erewrite bind_normal; [| apply setProperties_layout].
    erewrite bind_normal; [| apply setStyles_layout].
    apply processQueue_layout.
  - intros k v Hproto. split_and!; intros Hk.
    + rewrite flushed_attributes, attributes_after_entries by by apply assign_all_NoDup.
      rewrite assign_all_get, Hk by done. unfold pending_value.
      by rewrite decide_False by done.
    + rewrite flushed_properties, properties_after_entries by by apply assign_all_NoDup.
      rewrite assign_all_get, Hk by done. unfold pending_value.
      by rewrite decide_False by done.
    + rewrite flushed_style, style_after_entries by by apply assign_all_NoDup.
      rewrite assign_all_get, Hk by done. unfold pending_value.
      by rewrite decide_False by done.
Qed.

(** X19.  [conceal] adds nothing to what [isVisible] returns: after
    [conceal] and a flush, [isVisible] returns what it returns after the
    flush alone, whatever was pending, provided the arrangement
    [transitionEnd] makes on the node for the [display] hook leaves the
    node's [visibility] style as it is.  [conceal] hides through the class
    ["hide"], [aria-hidden] and, later, [display], never through the
    [visibility] style that [isVisible] reads. *)
Theorem isVisible_does_not_see_conceal (te : (Dom -> Dom) -> Dom -> Dom) tk
        (dontHide : bool) d a p s ops (r w : bool) :
  (forall d0, style_get "visibility" (te (style_set "display" (VStr "none")) d0)
              = style_get "visibility" d0) ->
  res (isVisible (st ((conceal te tk dontHide ;; processQueue)
                        (mkElement (Some d) (layout a p s ops) r w))))
  = res (isVisible (st (processQueue (mkElement (Some d) (layout a p s ops) r w)))).
Proof.
  intros Hte.
  destruct (conceal_layout te tk dontHide d a p s ops r w) as (a' & Hc).
  erewrite bind_normal; [| exact Hc]. rewrite !processQueue_layout.
  unfold isVisible, bind, gets, ret. cbn [res st element].
  set (d0 := if classList_contains "show" d && negb dontHide
             then te (style_set "display" (VStr "none")) d else d).
  assert (Hd0 : style_get "visibility" d0 = style_get "visibility" d).
  { subst d0. destruct (classList_contains "show" d && negb dontHide); [apply Hte | done]. }
  rewrite !visibility_after_flush.
  by rewrite (visibility_after_styles s d0 d Hd0).
Qed.
End PluralOnDom.

Lemma plural_setters_store_every_entry_witness :
  exists d',
    (setAttributes [("title", VStr "tip"); ("tabindex", VNum 0)] ;;
     setProperties [("checked", VBool true)] ;;
     setStyles [("color", VStr "red")] ;; processQueue)
      (new_Element (Some blank))
    = Outcome (mkElement (Some d') (layout [] [] [] []) false false) [] (Normal This)
    /\ dom_attributes d' !! "tabindex" = Some "0"
    /\ dom_properties d' !! "checked" = Some (VBool true)
    /\ dom_style d' !! "color" = Some (VStr "red").
Proof.
  assert (Hma : NoDup ([("title", VStr "tip"); ("tabindex", VNum 0)] : jsobj jsval).*1).
  { refine (bool_decide_unpack _ _). vm_compute. exact I. }
  assert (Hone : forall kv : string * jsval, NoDup [kv].*1) by (intros; apply NoDup_singleton).
  destruct (plural_setters_store_every_entry blank
              [("title", VStr "tip"); ("tabindex", VNum 0)]
              [("checked", VBool true)] [("color", VStr "red")]
              [] [] [] [] false false Hma (Hone _) (Hone _)
              (NoDup_nil_2 (A:=string)) (NoDup_nil_2 (A:=string)) (NoDup_nil_2 (A:=string)))
    as (d' & Hrun & Hget).
  exists d'. split; [exact Hrun |]. split_and!.
  - apply (Hget "tabindex" (VNum 0)); [done | reflexivity].
  - apply (Hget "checked" (VBool true)); [done | reflexivity].
  - apply (Hget "color" (VStr "red")); [done | reflexivity].
Defined.

(** A pending [visibility] style reaches the node with or without
    [conceal]: [isVisible] is [false] after the flush either way. *)
Lemma isVisible_does_not_see_conceal_witness :
  res (isVisible (st ((conceal (fun hook node => hook node) aria_on false ;; processQueue)
                        (mkElement (Some (mkDom {["show"]} ∅ ∅ ∅))
                                   (layout [] [] [("visibility", VStr "hidden")] [])
                                   false false))))
  = res (isVisible (st (processQueue
                          (mkElement (Some (mkDom {["show"]} ∅ ∅ ∅))
                                     (layout [] [] [("visibility", VStr "hidden")] [])
                                     false false)))).
Proof.
  apply (isVisible_does_not_see_conceal (fun hook node => hook node) aria_on false
           (mkDom {["show"]} ∅ ∅ ∅) [] [] [("visibility", VStr "hidden")] [] false false).
  intros d0. cbn. by rewrite lookup_insert_ne.
Defined.

(** ** [Toolkit.create] and [bem] *)

Section Names.

Lemma append_length (s1 s2 : string) :
  String.length (s1 +:+ s2) = String.length s1 + String.length s2.
Proof.
  induction s1 as [|c s1 IH]; [done |].
  change (S (String.length (s1 +:+ s2)) = S (String.length s1 + String.length s2)).
  by rewrite IH.
Qed.

Lemma append_assoc (s1 s2 s3 : string) : (s1 +:+ s2) +:+ s3 = s1 +:+ (s2 +:+ s3).
Proof.
  induction s1 as [|c s1 IH]; [done |].
  change (String c ((s1 +:+ s2) +:+ s3) = String c (s1 +:+ (s2 +:+ s3))).
  by rewrite IH.
Qed.

Lemma slice1_length (s : string) : String.length s <= S (String.length (slice1 s)).
Proof. destruct s; cbn; lia. Qed.

(** The name [create] falls back to is never the plugin's own name, whatever
    [toUpperCase] does to the first character. *)
Lemma fallback_name_differs (toUpperCase : string -> string) (plugin : string) :
  "toolkit" +:+ toUpperCase (charAt0 plugin) +:+ slice1 plugin ≠ plugin.
Proof.
  intros Heq. apply (f_equal String.length) in Heq.
  rewrite !append_length in Heq. cbn [String.length] in Heq.
  pose proof (slice1_length plugin). lia.
Qed.

(** X20.  When [$.fn] already has a method under the plugin's name,
    [create] leaves that method in place and installs the plugin under
    ["toolkit"] followed by the capitalised name; every other entry of
    [$.fn] is as before.  The fallback name itself is not looked up: what
    was under it is replaced. *)
Theorem create_spares_the_taken_name {Callback : Type} (toUpperCase : string -> string)
        (fn : jq_fn Callback) (plugin : string) (callback : Callback) (collection : bool)
        (taken : fn_entry Callback) :
  fn plugin = Some taken ->
  let fn' := create Callback toUpperCase plugin callback collection fn in
  let name := "toolkit" +:+ toUpperCase (charAt0 plugin) +:+ slice1 plugin in
  fn' plugin = Some taken
  /\ fn' name = Some (Installed plugin callback collection)
  /\ forall k, k ≠ name -> fn' k = fn k.
Proof.
  intros Htaken. cbv zeta. unfold create, create_name. rewrite Htaken.
  split_and!.
  - rewrite decide_False; [done |]. intros Heq. symmetry in Heq.
    by apply fallback_name_differs in Heq.
  - by rewrite decide_True.
  - intros k Hk. by rewrite decide_False.
Qed.

(** X21.  Building a class name in two steps, block and element first and
    the modifier after, gives the name of the single call with the
    namespace put in front once more: the two agree when auto-namespacing
    is off, and with it on the namespace comes twice. *)
Theorem bem_in_two_steps (options : TitonOptions) (block element modifier : string) :
  bem options (bem options block element "") "" modifier
  = (if autoNamespace options then namespace options else "")
      +:+ bem options block element modifier.
Proof.
  unfold bem. cbn [truthy].
  destruct (truthy element), (truthy modifier), (autoNamespace options);
    cbn [String.append]; by rewrite ?append_assoc.
Qed.
End Names.

Lemma create_spares_the_taken_name_witness :
  create unit toUpperCase_ascii "tooltip" tt false fn_with_tooltip "tooltip"
  = Some (Foreign "jquery-ui")
  /\ create unit toUpperCase_ascii "tooltip" tt false fn_with_tooltip "toolkitTooltip"
     = Some (Installed "tooltip" tt false)
  /\ forall k, k ≠ "toolkitTooltip" ->
               create unit toUpperCase_ascii "tooltip" tt false fn_with_tooltip k
               = fn_with_tooltip k.
Proof.
  exact (create_spares_the_taken_name toUpperCase_ascii fn_with_tooltip "tooltip" tt false
           (Foreign "jquery-ui") eq_refl).
Defined.

(** ** What the attribute map holds *)

Section Strings.
Context {T : Type} `{Host T}.
Implicit Types (tk : Toolkit) (el : option T) (a p s m : jsobj jsval) (ops : list classop).

Lemma obj_set_strings_only (k str : string) a :
  strings_only a -> strings_only (obj_set k (VStr str) a).
Proof.
  unfold strings_only. induction a as [|[k' v'] a IH]; cbn [obj_set]; intros Ha.
  - apply Forall_cons. split; [by eexists | done].
  - apply Forall_cons in Ha as [Hv Ha]. destruct (decide (k = k')) as [->|Hne].
    + apply Forall_cons. split; [by eexists | done].
    + apply Forall_cons. split; [done | by apply IH].
Qed.

Lemma insert_index_strings_only (i : N) (k str : string) a :
  strings_only a -> strings_only (insert_index i k (VStr str) a).
Proof.
  unfold strings_only. induction a as [|[k' v'] a IH]; cbn [insert_index]; intros Ha.
  - apply Forall_cons. split; [by eexists | done].
  - destruct (array_index k') as [i'|]; [destruct (i <? i')%N |].
    + apply Forall_cons. split; [by eexists | done].
    + apply Forall_cons in Ha as [Hv Ha]. apply Forall_cons. split; [done | by apply IH].
    + apply Forall_cons. split; [by eexists | done].
Qed.

Lemma obj_assign_strings_only (k str : string) a :
  strings_only a -> strings_only (obj_assign k (VStr str) a).
Proof.
  intros Ha. unfold obj_assign. case_decide; [done |].
  destruct (array_index k) as [i|]; [| by apply obj_set_strings_only].
  destruct (obj_get k a); [by apply obj_set_strings_only |].
  by apply insert_index_strings_only.
Qed.

Lemma strings_only_get (k : string) (v : jsval) a :
  strings_only a -> obj_get k a = Some v -> exists str, v = VStr str.
Proof.
  unfold strings_only. induction a as [|[k' v'] a IH]; cbn [obj_get]; intros Ha Hget.
  - discriminate Hget.
  - apply Forall_cons in Ha as [Hv Ha]. destruct (decide (k = k')) as [->|Hne].
    + injection Hget as <-. exact Hv.
    + by apply IH.
Qed.

Lemma forOwn_keeps_strings (f : string -> jsval -> M T ref) el ops (r w : bool) m :
  (forall k v a p s, strings_only a -> exists a' p' s',
      f k v (mkElement el (layout a p s ops) r w)
      = Outcome (mkElement el (layout a' p' s' ops) r w) [] (Normal This)
      /\ strings_only a') ->
  forall a p s, strings_only a -> exists a' p' s',
    forOwn m (fun k v => f k v ;; ret tt) (mkElement el (layout a p s ops) r w)
    = Outcome (mkElement el (layout a' p' s' ops) r w) [] (Normal tt)
    /\ strings_only a'.
Proof.
  intros Hf. induction m as [|[k v] m IH]; intros a p s Ha.
  - by exists a, p, s.
  - destruct (Hf k v a p s Ha) as (a1 & p1 & s1 & H1 & Ha1).
    destruct (IH a1 p1 s1 Ha1) as (a2 & p2 & s2 & H2 & Ha2).
    exists a2, p2, s2. split; [| done]. cbn [forOwn].
    erewrite bind_normal; [exact H2 |].
    erewrite bind_normal; [reflexivity | exact H1].
Qed.

Lemma setAttribute_keeps_strings el ops (r w : bool) k v a p s :
  strings_only a -> exists a' p' s',
    setAttribute k v (mkElement el (layout a p s ops) r w)
    = Outcome (mkElement (T:=T) el (layout a' p' s' ops) r w) [] (Normal This)
    /\ strings_only a'.
Proof.
  intros Ha. eexists _, p, s. split; [apply setAttribute_layout |].
  by apply obj_assign_strings_only.
Qed.

(** Under a key other than ["toggled"], [setAria] is [setAttribute] with
    the prefixed name. *)
Lemma setAria_at_leaf (depth : nat) (key : string) (value : jsval) :
  key ≠ "toggled" ->
  setAria_at (T:=T) (mkToolkit true) depth key value
  = setAttribute ("aria-" +:+ key) value.
Proof.
  intros Hkey. destruct depth; cbn [setAria_at aria negb]; by rewrite decide_False.
Qed.

Lemma setAria_keeps_strings tk el ops (r w : bool) k v a p s :
  strings_only a -> exists a' p' s',
    setAria tk k v (mkElement el (layout a p s ops) r w)
    = Outcome (mkElement (T:=T) el (layout a' p' s' ops) r w) [] (Normal This)
    /\ strings_only a'.
Proof.
  intros Ha. destruct tk as [[|]].
  - destruct (decide (k = "toggled")) as [->|Hk].
    + rewrite setAria_toggled_chain. eexists _, p, s. split.
      * erewrite bind_normal; [| apply setAttribute_layout]. apply setAttribute_layout.
      * by do 2 apply obj_assign_strings_only.
    + unfold setAria. rewrite setAria_at_leaf by done.
      by apply setAttribute_keeps_strings.
  - exists a, p, s. by split.
Qed.

Lemma perform_keeps_strings tk (c : setter_call) el a p s ops (r w : bool) :
  strings_only a -> exists a' p' s',
    perform tk c (mkElement el (layout a p s ops) r w)
    = Outcome (mkElement (T:=T) el (layout a' p' s' (class_step ops c)) r w) [] (Normal This)
    /\ strings_only a'.
Proof.
  intros Ha. destruct c as [n|n|k v|m|k v|m|k v|m|k v|m]; cbn [perform class_step].
  - exists a, p, s. split; [apply addClass_layout | done].
  - exists a, p, s. split; [apply removeClass_layout | done].
  - by apply setAttribute_keeps_strings.
  - destruct (forOwn_keeps_strings setAttribute el ops r w m) with (a := a) (p := p) (s := s)
      as (a' & p' & s' & Hm & Ha'); [| done |].
    { intros. by apply setAttribute_keeps_strings. }
    exists a', p', s'. split; [| done]. unfold setAttributes. by erewrite bind_normal.
  - eexists a, _, s. split; [apply setProperty_layout | done].
  - eexists a, _, s. split; [apply setProperties_layout | done].
  - eexists a, p, _. split; [apply setStyle_layout | done].
  - eexists a, p, _. split; [apply setStyles_layout | done].
  - by apply setAria_keeps_strings.
  - destruct (forOwn_keeps_strings (setAria tk) el ops r w m) with (a := a) (p := p) (s := s)
      as (a' & p' & s' & Hm & Ha'); [| done |].
    { intros. by apply setAria_keeps_strings. }
    exists a', p', s'. split; [| done]. unfold setArias. by erewrite bind_normal.
Qed.

Lemma perform_all_keeps_strings tk (cs : list setter_call) el a p s ops (r w : bool) :
  strings_only a -> exists a' p' s',
    perform_all tk cs (mkElement el (layout a p s ops) r w)
    = Outcome (mkElement (T:=T) el (layout a' p' s' (class_keys ops cs)) r w) [] (Normal tt)
    /\ strings_only a'.
Proof.
  revert a p s ops. induction cs as [|c cs IH]; intros a p s ops Ha.
  - by exists a, p, s.
  - destruct (perform_keeps_strings tk c el a p s ops r w Ha) as (a1 & p1 & s1 & H1 & Ha1).
    destruct (IH a1 p1 s1 (class_step ops c) Ha1) as (a2 & p2 & s2 & H2 & Ha2).
    exists a2, p2, s2. split; [| done]. cbn [perform_all class_keys fold_left].
    by erewrite bind_normal.
Qed.

(** X22.  Whatever setter calls were made on a new instance, every value
    waiting in the queue's attribute map is a string: [setAttribute],
    [setAttributes], [setAria] and [setArias] all store [String(value)], so
    the node is never handed anything else by [setAttribute]. *)
Theorem pending_attributes_are_strings tk (cs : list setter_call) (el : option T) :
  exists a p s ops,
    queue (st (perform_all tk cs (new_Element el))) = layout a p s ops
    /\ forall k v, obj_get k a = Some v -> exists str, v = VStr str.
Proof.
  destruct (perform_all_keeps_strings tk cs el [] [] [] [] false false)
    as (a & p & s & Hrun & Ha); [apply Forall_nil_2 |].
  exists a, p, s, (class_keys [] cs). split.
  - change (new_Element el) with (mkElement el (layout [] [] [] []) false false).
    by rewrite Hrun.
  - intros k v. by apply strings_only_get.
Qed.
End Strings.
